(** * Markdown fixers of Luciferase: [fix-remaining-md-errors.py] and
      [fix-md-complete.py]

    A shallow embedding of the two normalisers and of the part of Python's
    [str] and [re] they use, followed by the properties of the written
    specification, each settled against the embedding.

    Modelling choices.
    - A Python [str] is a [list ascii]: a sequence of code points below 256.
      In that range [str.isspace] and the regex class [\s] are the twelve
      characters of [isspace] below, and [\d] is [0-9].
    - An operation that can raise ([lines[i]], [line[1]], [lines[i] = v],
      [match.group(n)] of a group that took no part) returns [option]; the
      functions that use one run in the option monad, [None] standing for
      the exception.
    - [re.match] and [re.sub] are a backtracking matcher in continuation
      passing style over the pattern's syntax, with Python's order of
      alternatives: greedy quantifiers try the longest repetition first,
      lazy ones the shortest.

    Layout. The embedding of the scripts comes first, then the pure views
    the loops are proved to compute and the vocabulary of the specification,
    then the lemmas and the theorems. *)

From Stdlib Require Import Ascii String.
From stdpp Require Import base decidable option list.

Local Open Scope char_scope.
Local Open Scope list_scope.

(** ** Python strings *)

Abbreviation str := (list ascii).

(** String literals: [txt "abc"] is the Python string ['abc']. *)
Definition txt (s : string) : str := list_ascii_of_string s.

Definition NL : ascii := "010".

Definition ord (c : ascii) : N := N_of_ascii c.

(** [c.isspace()], which is also the class [\s]. *)
Definition isspace (c : ascii) : bool :=
  let n := ord c in
  ((9 <=? n) && (n <=? 13) || (28 <=? n) && (n <=? 32)
   || (n =? 133) || (n =? 160))%N.

(** The class [\d]. *)
Definition isdigit (c : ascii) : bool :=
  let n := ord c in ((48 <=? n) && (n <=? 57))%N.

Definition is_char (a : ascii) (c : ascii) : bool := Ascii.eqb c a.

(** Membership in a set of characters written as a string, as in [[.,;:]]. *)
Definition one_of (cs : string) (c : ascii) : bool :=
  existsb (Ascii.eqb c) (list_ascii_of_string cs).

(** [.] matches every character but a newline, and the negated class
    [^*] every character but a star. *)
Definition dot (c : ascii) : bool := negb (Ascii.eqb c NL).
Definition not_star (c : ascii) : bool := negb (Ascii.eqb c "*").

Fixpoint str_eqb (a b : str) : bool :=
  match a, b with
  | [], [] => true
  | x :: a', y :: b' => Ascii.eqb x y && str_eqb a' b'
  | _, _ => false
  end.

(** [s.startswith(p)] *)
Fixpoint startswith (p s : str) : bool :=
  match p, s with
  | [], _ => true
  | x :: p', y :: s' => Ascii.eqb x y && startswith p' s'
  | _ :: _, [] => false
  end.

(** [s.endswith(p)] *)
Definition endswith (p s : str) : bool := startswith (rev p) (rev s).

(** [c in s] *)
Definition contains (c : ascii) (s : str) : bool := existsb (Ascii.eqb c) s.

(** [s.lstrip()], [s.rstrip()], [s.strip()] and [s.rstrip(chars)], over the
    set of characters to drop. *)
Fixpoint lstrip_by (p : ascii → bool) (s : str) : str :=
  match s with
  | c :: t => if p c then lstrip_by p t else s
  | [] => []
  end.

Fixpoint rstrip_by (p : ascii → bool) (s : str) : str :=
  match s with
  | c :: t =>
      match rstrip_by p t with
      | [] => if p c then [] else [c]
      | r => c :: r
      end
  | [] => []
  end.

Definition rstrip (s : str) : str := rstrip_by isspace s.
Definition strip (s : str) : str := rstrip_by isspace (lstrip_by isspace s).

(** [s.split(sep)] for a one-character separator: never empty, [''] for
    the empty string. *)
Fixpoint split (sep : ascii) (s : str) : list str :=
  match s with
  | [] => [[]]
  | c :: t =>
      if Ascii.eqb c sep then [] :: split sep t
      else match split sep t with
           | h :: r => (c :: h) :: r
           | [] => [[c]]
           end
  end.

(** [sep.join(parts)] *)
Fixpoint join (sep : str) (parts : list str) : str :=
  match parts with
  | [] => []
  | [p] => p
  | p :: r => p ++ sep ++ join sep r
  end.

(** [s.replace(old, new, 1)]: the first occurrence only ([old] not empty). *)
Fixpoint replace_first (old new : str) (s : str) : str :=
  if startswith old s then new ++ drop (length old) s
  else match s with
       | c :: t => c :: replace_first old new t
       | [] => []
       end.

(** [s.replace(c, new)] for a one-character [c]: every occurrence. *)
Definition replace_char (c : ascii) (new : str) (s : str) : str :=
  flat_map (fun x => if Ascii.eqb x c then new else [x]) s.

(** ** Regular expressions *)

(** The syntax the patterns of the two scripts need. Quantifiers are only
    ever applied to a single character class there, so [Star] takes one. *)
Inductive regex :=
| Eps
| Chr (p : ascii → bool)
| Bol
| Eol
| Seq (r1 r2 : regex)
| Alt (r1 r2 : regex)
| Star (greedy : bool) (p : ascii → bool)
| Grp (n : nat) (r : regex).

Definition Plus (greedy : bool) (p : ascii → bool) : regex :=
  Seq (Chr p) (Star greedy p).

Definition cat (rs : list regex) : regex := fold_right Seq Eps rs.

(** A matcher state: the position reached, the text still to read and the
    groups captured so far (most recent first). *)
Record mstate := MS { mpos : nat; mrest : str; mcaps : list (nat * str) }.

Fixpoint star_exec (greedy : bool) (p : ascii → bool) (caps : list (nat * str))
    (k : mstate → option mstate) (rest : str) (pos : nat) : option mstate :=
  match rest with
  | c :: t =>
      if p c then
        if greedy then
          match star_exec greedy p caps k t (S pos) with
          | Some m => Some m
          | None => k (MS pos rest caps)
          end
        else
          match k (MS pos rest caps) with
          | Some m => Some m
          | None => star_exec greedy p caps k t (S pos)
          end
      else k (MS pos rest caps)
  | [] => k (MS pos [] caps)
  end.

(** [exec r st k]: match [r] at [st], then the rest of the pattern [k];
    [None] makes the caller backtrack. [$] matches at the end and before a
    final newline, [^] only at position 0 (no MULTILINE flag is used). *)
Fixpoint exec (r : regex) (st : mstate) (k : mstate → option mstate)
    : option mstate :=
  match r with
  | Eps => k st
  | Chr p =>
      match mrest st with
      | c :: t => if p c then k (MS (S (mpos st)) t (mcaps st)) else None
      | [] => None
      end
  | Bol => if Nat.eqb (mpos st) 0 then k st else None
  | Eol =>
      match mrest st with
      | [] => k st
      | [c] => if Ascii.eqb c NL then k st else None
      | _ => None
      end
  | Seq a b => exec a st (fun st' => exec b st' k)
  | Alt a b =>
      match exec a st k with
      | Some m => Some m
      | None => exec b st k
      end
  | Star g p => star_exec g p (mcaps st) k (mrest st) (mpos st)
  | Grp n r =>
      exec r st (fun st' =>
        k (MS (mpos st') (mrest st')
              ((n, take (mpos st' - mpos st) (mrest st)) :: mcaps st')))
  end.

(** [re.match(r, s)] *)
Definition re_match (r : regex) (s : str) : option mstate :=
  exec r (MS 0 s []) Some.

(** [m.group(n)]: [None] when the group took no part in the match. *)
Fixpoint assoc (n : nat) (caps : list (nat * str)) : option str :=
  match caps with
  | (i, s) :: r => if Nat.eqb i n then Some s else assoc n r
  | [] => None
  end.

Definition group (m : mstate) (n : nat) : option str := assoc n (mcaps m).

(** [re.sub(r, repl, s)] for a pattern that matches no empty string: scan
    from the left; at a position where [r] matches, emit the replacement and
    resume after the match ([skip] counts the characters of it still to
    pass); elsewhere copy the character. *)
Fixpoint re_sub_loop (r : regex) (repl : mstate → str)
    (rest : str) (pos skip : nat) : str :=
  match rest with
  | [] => []
  | c :: t =>
      match skip with
      | S n => re_sub_loop r repl t (S pos) n
      | 0 =>
          match exec r (MS pos rest []) Some with
          | Some m => repl m ++ re_sub_loop r repl t (S pos) (mpos m - pos - 1)
          | None => c :: re_sub_loop r repl t (S pos) 0
          end
      end
  end.

Definition re_sub (r : regex) (repl : mstate → str) (s : str) : str :=
  re_sub_loop r repl s 0 0.

(** A reference [\n] of a replacement template: empty for a group that took
    no part. *)
Definition backref (m : mstate) (n : nat) : str := default [] (group m n).

Definition matches (r : regex) (s : str) : bool :=
  match re_match r s with Some _ => true | None => false end.

(** ** Loops *)

(** [for x in xs: s = body(s, x)], stopping at the first exception. *)
Fixpoint for_each {S A : Type} (body : S → A → option S) (xs : list A) (s : S)
    : option S :=
  match xs with
  | [] => Some s
  | x :: r => s' ← body s x; for_each body r s'
  end.

(** [enumerate(xs)] *)
Definition enumerate {A : Type} (xs : list A) : list (nat * A) :=
  imap (fun i x => (i, x)) xs.

(** [l[i] = v], an IndexError out of range. *)
Definition setitem {A : Type} (i : nat) (v : A) (l : list A) : option (list A) :=
  if decide (i < length l) then Some (<[i:=v]> l) else None.

(** ** The patterns *)

Definition SP : ascii := " ".

(** The pattern, spaced out: ^ ( #+ \s+ .+? ) ( [.,;:]+ ) ( \s* ) $ *)
Definition heading_punct_re : regex :=
  cat [Bol;
       Grp 1 (cat [Plus true (is_char "#"); Plus true isspace; Plus false dot]);
       Grp 2 (Plus true (one_of ".,;:"));
       Grp 3 (Star true isspace);
       Eol].

(** The pattern: ^ then four spaces then [-*]\s+ *)
Definition indent4_re : regex :=
  cat [Bol; Chr (is_char SP); Chr (is_char SP); Chr (is_char SP);
       Chr (is_char SP); Chr (one_of "-*"); Plus true isspace].

(** The pattern, spaced out: ^ ( \s* ) ( \d+ ) \. \s+ *)
Definition ordered_re : regex :=
  cat [Bol; Grp 1 (Star true isspace); Grp 2 (Plus true isdigit);
       Chr (is_char "."); Plus true isspace].

(** The pattern, spaced out: \* \s+ ( [^*]+? ) \s+ \* *)
Definition emphasis_re : regex :=
  cat [Chr (is_char "*"); Plus true isspace; Grp 1 (Plus false not_star);
       Plus true isspace; Chr (is_char "*")].

(** The pattern: ^\|.+\|$ *)
Definition table_row_re : regex :=
  cat [Bol; Chr (is_char "|"); Plus true dot; Chr (is_char "|"); Eol].

(** The pattern: ^\|[-:| ]+\|$ *)
Definition table_sep_re : regex :=
  cat [Bol; Chr (is_char "|"); Plus true (one_of "-:| "); Chr (is_char "|");
       Eol].

(** The pattern, spaced out: ^ ( \s* ) [-*] \s+ | ^ ( \s* ) \d+ \. \s+ *)
Definition list_item_re : regex :=
  Alt (cat [Bol; Grp 1 (Star true isspace); Chr (one_of "-*");
            Plus true isspace])
      (cat [Bol; Grp 2 (Star true isspace); Plus true isdigit;
            Chr (is_char "."); Plus true isspace]).

(** The pattern: \n\n\n+ *)
Definition blank_run_re : regex :=
  cat [Chr (is_char NL); Chr (is_char NL); Plus true (is_char NL)].

(** ** fix-remaining-md-errors.py *)

(** MD026: trailing punctuation of a heading. *)
Definition md026 (line : str) : option str :=
  if startswith (txt "#") line then
    match re_match heading_punct_re line with
    | Some m => g1 ← group m 1; g3 ← group m 3; Some (g1 ++ g3)
    | None => Some line
    end
  else Some line.

(** MD007: a list item indented by four spaces. *)
Definition md007 (line : str) : str :=
  if matches indent4_re line then replace_first (txt "    ") (txt "  ") line
  else line.

(** MD029: the ordered-list match is computed and nothing is done with it. *)
Definition md029 (line : str) : str :=
  match re_match ordered_re line with
  | Some _ => line
  | None => line
  end.

(** MD009: trailing spaces. *)
Definition md009 (line : str) : str :=
  if endswith (txt " ") line && negb (endswith (txt "  ") line)
  then rstrip line else line.

(** MD037: spaces inside emphasis markers. *)
Definition md037 (line : str) : str :=
  re_sub emphasis_re (fun m => txt "*" ++ backref m 1 ++ txt "*") line.

(** MD060: table cells, compact style. *)
Definition compact_cells (parts : list str) : list str :=
  imap (fun j part =>
          if Nat.eqb j 0 || Nat.eqb j (length parts - 1) then part
          else strip part) parts.

Definition md060 (line : str) : str :=
  if contains "|" line && matches table_row_re (strip line) then
    if negb (matches table_sep_re line) then
      join (txt "|") (compact_cells (split "|" line))
    else line
  else line.

(** The rewrites of one line outside a code block, in the order of the
    loop body. *)
Definition rewrite_line (line : str) : option str :=
  line ← md026 line;
  let line := md007 line in
  let line := md029 line in
  let line := md009 line in
  let line := md037 line in
  let line := md060 line in
  Some line.

(** The loop state: [in_code_block] and [result]. *)
Definition errors_body (st : bool * list str) (line : str)
    : option (bool * list str) :=
  let '(in_code_block, result) := st in
  if startswith (txt "```") (strip line) then
    Some (negb in_code_block, result ++ [line])
  else if in_code_block then
    Some (in_code_block, result ++ [line])
  else
    line ← rewrite_line line;
    Some (in_code_block, result ++ [line]).

Definition fix_markdown_errors (content : str) : option str :=
  let lines := split NL content in
  st ← for_each errors_body lines (false, []);
  Some (join [NL] (snd st)).

(** ** fix-md-complete.py *)

Definition sep_cells (parts : list str) : list str :=
  imap (fun j part =>
          if Nat.eqb j 0 || Nat.eqb j (length parts - 1) then part
          else
            let cleaned := replace_char SP [] (strip part) in
            txt " " ++ cleaned ++ txt " ") parts.

(** First pass, one iteration: the test of the table separator reads the
    local [line], not the element just assigned. *)
Definition first_pass_body (lines : list str) (i : nat) : option (list str) :=
  line ← lines !! i;
  lines ← (if str_eqb (strip line) (txt "```")
           then setitem i (txt "```text") lines else Some lines);
  if matches table_sep_re line
  then setitem i (join (txt "|") (sep_cells (split "|" line))) lines
  else Some lines.

(** [l.startswith('#') and len(l) > 1 and l[1] in (' ', '#')] *)
Definition is_heading (l : str) : option bool :=
  if startswith (txt "#") l && (1 <? length l)%nat then
    c ← l !! 1; Some (Ascii.eqb c SP || Ascii.eqb c "#")
  else Some false.

Definition is_list (l : str) : bool := matches list_item_re l.
Definition is_code_fence (l : str) : bool := startswith (txt "```") (strip l).
Definition is_blank (l : str) : bool :=
  match strip l with [] => true | _ => false end.

(** The truth value of a string: not empty. *)
Definition truthy (s : str) : bool :=
  match s with [] => false | _ => true end.

Definition append_if (b : bool) (result : list str) : list str :=
  if b then result ++ [[]] else result.

(** Second pass, one iteration over [(i, line)] of [enumerate(lines)]. *)
Definition second_pass_body (lines : list str) (result : list str)
    (il : nat * str) : option (list str) :=
  let '(i, line) := il in
  prev_line ← (if (0 <? i)%nat then lines !! (i - 1) else Some []);
  next_line ← (if (i <? length lines - 1)%nat then lines !! (i + 1) else Some []);
  heading ← is_heading line;
  let list_item := is_list line in
  let code_fence := is_code_fence line in
  prev_is_heading ← is_heading prev_line;
  let prev_is_list := is_list prev_line in
  let prev_is_code := is_code_fence prev_line in
  let prev_is_blank := is_blank prev_line in
  next_is_heading ← is_heading next_line;
  let next_is_list := is_list next_line in
  let next_is_blank := is_blank next_line in
  let result :=
    append_if (heading && negb prev_is_blank && negb prev_is_heading
               && truthy (strip prev_line)) result in
  let result :=
    append_if (list_item && negb prev_is_blank && negb prev_is_list
               && negb prev_is_heading && negb prev_is_code
               && truthy (strip prev_line)) result in
  let result :=
    append_if (code_fence && negb prev_is_blank && negb prev_is_heading
               && truthy (strip prev_line)) result in
  let result := result ++ [line] in
  let result :=
    append_if (heading && negb next_is_blank && negb next_is_heading
               && truthy (strip next_line)) result in
  let result :=
    append_if (list_item && negb next_is_blank && negb next_is_list
               && negb next_is_heading && truthy (strip next_line)) result in
  let result :=
    append_if (code_fence && negb next_is_blank && negb next_is_heading
               && truthy (strip next_line)) result in
  Some result.

(** MD012 and MD047 on the joined text. *)
Definition collapse_blank_runs (text : str) : str :=
  re_sub blank_run_re (fun _ => [NL; NL]) text.

Definition single_trailing_newline (text : str) : str :=
  rstrip_by (is_char NL) text ++ [NL].

(** [for i in range(len(lines)): ...] and
    [for i, line in enumerate(lines): ...], from [result = []]. *)
Definition first_pass (lines : list str) : option (list str) :=
  for_each first_pass_body (seq 0 (length lines)) lines.

Definition second_pass (lines : list str) : option (list str) :=
  for_each (second_pass_body lines) (enumerate lines) [].

Definition fix_markdown_complete (content : str) : option str :=
  let lines := split NL content in
  lines ← first_pass lines;
  result ← second_pass lines;
  let text := join [NL] result in
  let text := collapse_blank_runs text in
  let text := single_trailing_newline text in
  Some text.

(** ** Pure views of the loops

    The loops above are index by index as the scripts write them. The
    definitions below are what the theorems show them to compute. *)

(** The value of [is_heading]. *)
Definition heading_like (l : str) : bool :=
  match l with
  | h :: c :: _ => Ascii.eqb h "#" && (Ascii.eqb c SP || Ascii.eqb c "#")
  | _ => false
  end.

(** What the first pass of [fix_markdown_complete] leaves at a line. *)
Definition fix_line (line : str) : str :=
  if matches table_sep_re line
  then join (txt "|") (sep_cells (split "|" line))
  else if str_eqb (strip line) (txt "```") then txt "```text" else line.

Definition b2n (b : bool) : nat := if b then 1 else 0.

(** How many blank lines the second pass appends before [line] on account
    of [prev], and after [line] on account of [next]. *)
Definition blanks_before (prev line : str) : nat :=
  b2n (heading_like line && negb (is_blank prev) && negb (heading_like prev)
       && truthy (strip prev))
  + b2n (is_list line && negb (is_blank prev) && negb (is_list prev)
         && negb (heading_like prev) && negb (is_code_fence prev)
         && truthy (strip prev))
  + b2n (is_code_fence line && negb (is_blank prev)
         && negb (heading_like prev) && truthy (strip prev)).

Definition blanks_after (line next : str) : nat :=
  b2n (heading_like line && negb (is_blank next) && negb (heading_like next)
       && truthy (strip next))
  + b2n (is_list line && negb (is_blank next) && negb (is_list next)
         && negb (heading_like next) && truthy (strip next))
  + b2n (is_code_fence line && negb (is_blank next)
         && negb (heading_like next) && truthy (strip next)).

(** What one iteration of the second pass appends to [result]. *)
Definition emitted (prev line next : str) : list str :=
  replicate (blanks_before prev line) [] ++ [line]
  ++ replicate (blanks_after line next) [].

Fixpoint blank_pass (prev : str) (lines : list str) : list str :=
  match lines with
  | [] => []
  | line :: rest => emitted prev line (hd [] rest) ++ blank_pass line rest
  end.

(** The state [in_code_block] after the lines [L], from [b]. *)
Definition fence_state (b : bool) (L : list str) : bool :=
  fold_left (fun b l => if is_code_fence l then negb b else b) L b.

(** The lines [fix_markdown_errors] appends for [L], from [in_code_block = b]. *)
Fixpoint errors_lines (b : bool) (L : list str) : option (list str) :=
  match L with
  | [] => Some []
  | l :: r =>
      if is_code_fence l then (l ::.) <$> errors_lines (negb b) r
      else if b then (l ::.) <$> errors_lines b r
      else l' ← rewrite_line l; (l' ::.) <$> errors_lines b r
  end.

(** A group that every match of the pattern binds. *)
Fixpoint binds (n : nat) (r : regex) : bool :=
  match r with
  | Seq a b => binds n a || binds n b
  | Alt a b => binds n a && binds n b
  | Grp i a => Nat.eqb i n || binds n a
  | _ => false
  end.

(** ** The specification's vocabulary *)

(** Line [o] is a fence delimiter met while not inside a block. *)
Definition opening (L : list str) (o : nat) : Prop :=
  (∃ l, L !! o = Some l ∧ is_code_fence l = true)
  ∧ fence_state false (take o L) = false.

(** Line [i] lies strictly between an opening delimiter and the next
    delimiter after it, which closes it. *)
Definition inside_fence (L : list str) (i : nat) : Prop :=
  ∃ o c, o < i < c ∧ opening L o
    ∧ (∃ l, L !! c = Some l ∧ is_code_fence l = true)
    ∧ ∀ j l, o < j < c → L !! j = Some l → is_code_fence l = false.

(** ** What a match of a pattern looks like

    [den r st st']: the matcher can go from [st] to [st'] through [r]. This
    is the pattern read as a relation, without the order in which the
    alternatives are tried. *)
Fixpoint den (r : regex) (st st' : mstate) : Prop :=
  match r with
  | Eps => st' = st
  | Chr p =>
      ∃ c t, mrest st = c :: t ∧ p c = true
             ∧ st' = MS (S (mpos st)) t (mcaps st)
  | Bol => mpos st = 0 ∧ st' = st
  | Eol => (mrest st = [] ∨ mrest st = [NL]) ∧ st' = st
  | Seq a b => ∃ mid, den a st mid ∧ den b mid st'
  | Alt a b => den a st st' ∨ den b st st'
  | Star _ p =>
      ∃ run, Forall (λ c, p c = true) run
             ∧ mrest st = run ++ mrest st'
             ∧ mpos st' = mpos st + length run
             ∧ mcaps st' = mcaps st
  | Grp n a =>
      ∃ st1, den a st st1
             ∧ st' = MS (mpos st1) (mrest st1)
                        ((n, take (mpos st1 - mpos st) (mrest st)) :: mcaps st1)
  end.

(** The text a pattern consumed between two states. *)
Definition consumed (st st' : mstate) (w : str) : Prop :=
  mrest st = w ++ mrest st' ∧ mpos st' = mpos st + length w.

(** Every captured group is made of characters satisfying [P]. *)
Definition caps_all (P : ascii → Prop) (caps : list (nat * str)) : Prop :=
  Forall (λ ns, Forall P ns.2) caps.

(** A document given by its lines. *)
Definition doc (L : list string) : str := join [NL] (txt <$> L).

(** Fence safety of a normaliser [f]: a line strictly inside a fence is a
    line of the output. *)
Definition fence_safe (f : str → option str) : Prop :=
  ∀ content i line,
    split NL content !! i = Some line →
    inside_fence (split NL content) i →
    ∃ out, f content = Some out ∧ line ∈ split NL out.





(** What follows the heading text in a match of the heading pattern:
    punctuation, spaces, the end. *)
Definition heading_tail_re : regex :=
  cat [Grp 2 (Plus true (one_of ".,;:")); Grp 3 (Star true isspace); Eol].

(** The heading rule as the specification states it: of a heading (hashes,
    a space, text, a run of punctuation, trailing whitespace) exactly the
    run goes. *)
Definition strips_heading_punctuation (f : str → option str) : Prop :=
  ∀ hashes text punct trail : str,
    hashes ≠ [] → Forall (λ c, c = "#") hashes →
    (∀ c, last text = Some c → one_of ".,;:" c = false) →
    punct ≠ [] → Forall (λ c, one_of ".,;:" c = true) punct →
    Forall (λ c, isspace c = true) trail →
    f (hashes ++ [SP] ++ text ++ punct ++ trail)
    = Some (hashes ++ [SP] ++ text ++ trail).

(** What follows the emphasised text in a match of the emphasis pattern. *)
Definition emphasis_tail_re : regex :=
  cat [Plus true isspace; Chr (is_char "*")].

(** The emphasis rule as the specification states it for list items: the
    marker [*] and the space after it stay. *)
Definition keeps_list_marker (f : str → str) : Prop :=
  ∀ item, startswith (txt "* ") (f (txt "* " ++ item)) = true.

(** The last sentence of the heading rule, over a classification: where no
    line is a heading (nor a list item nor a fence delimiter), the second
    pass inserts nothing. *)
Definition no_blanks_without (classify : str → bool) : Prop :=
  ∀ L, Forall (λ l, classify l = false ∧ is_list l = false
                    ∧ is_code_fence l = false) L →
       second_pass L = Some L.

(** ** Views of the clean-up of [fix_markdown_complete] *)

(** What the substitution of the blank-run pattern computes on a text, [n]
    newlines having just gone by: of a run of newlines the first two stay. *)
Fixpoint squeeze (n : nat) (t : str) : str :=
  match t with
  | [] => []
  | c :: t' =>
      if Ascii.eqb c NL
      then (if n <? 2 then NL :: squeeze (S n) t' else squeeze (S n) t')%nat
      else c :: squeeze 0 t'
  end.

(** The same on the lines of the text: an empty line goes when two newlines
    came just before it and a line follows it. *)
Fixpoint squeeze_lines (n : nat) (L : list str) : list str :=
  match L with
  | [] => []
  | l :: rest =>
      match rest with
      | [] => [l]
      | _ :: _ =>
          match l with
          | [] => (if n <? 2 then [] :: squeeze_lines (S n) rest
                   else squeeze_lines (S n) rest)%nat
          | _ :: _ => l :: squeeze_lines 1 rest
          end
      end
  end.

(** The lines without the empty lines at their end. *)
Fixpoint rstrip_lines (X : list str) : list str :=
  match X with
  | [] => []
  | l :: r =>
      match rstrip_lines r with
      | [] => match l with [] => [] | _ :: _ => [l] end
      | r' => l :: r'
      end
  end.

(** The lines of the text once its trailing newlines are one newline. *)
Definition final_lines (X : list str) : list str :=
  match rstrip_lines X with
  | [] => [[]; []]
  | X0 => X0 ++ [[]]
  end.

(** The blank lines the second pass puts between two neighbours. *)
Definition gap (x y : str) : nat := blanks_after x y + blanks_before x y.

(** No two neighbours of [X], nor [p] and its first line, call for a blank
    line. *)
Fixpoint quiet_from (p : str) (X : list str) : Prop :=
  match X with
  | [] => True
  | x :: r => gap p x = 0 ∧ quiet_from x r
  end.

(** The number of newlines at the end of [a], [n] having come before it. *)
Fixpoint newlines_after (n : nat) (a : str) : nat :=
  match a with
  | [] => n
  | c :: a' => newlines_after (if Ascii.eqb c NL then S n else 0) a'
  end.

(** An interior cell of a separator row after the first pass. *)
Definition clean_cell (part : str) : str :=
  txt " " ++ replace_char SP [] (strip part) ++ txt " ".

(** The fence rule as the specification states it, over the first pass: a
    bare delimiter gets the tag when it opens a block and stays as it is
    when it closes one. *)
Definition tags_opening_only (pass : list str → option (list str)) : Prop :=
  ∀ L i line,
    L !! i = Some line → strip line = txt "```" →
    ∃ L', pass L = Some L'
          ∧ L' !! i = Some (if fence_state false (take i L) then line
                            else txt "```text").

(** A property of every character of a literal. *)
Ltac each_char :=
  cbv [txt list_ascii_of_string]; repeat (constructor; [done|]); constructor.

(** ** Vocabulary of the further properties *)

(** The characters of a text that are neither whitespace nor one of the
    punctuation marks MD026 removes, and those that are not whitespace. *)
Definition content_char (c : ascii) : bool :=
  negb (isspace c || one_of ".,;:" c).

Definition content_of (s : str) : str := List.filter content_char s.

Definition unspaced (s : str) : str :=
  List.filter (λ c, negb (isspace c)) s.

(** The lines that are not empty. *)
Definition nonempty_lines (L : list str) : list str := List.filter truthy L.

(** A text without its spaces. *)
Definition without_spaces (s : str) : str :=
  List.filter (λ a, negb (Ascii.eqb a SP)) s.

(** The end of a text in the specification's words: its trailing blank
    lines are trimmed.  Of the lines of [out], the one its last newline ends
    is not blank, unless it is the only one. *)
Definition trailing_blank_lines_trimmed (out : str) : Prop :=
  ∀ L l, split NL out = L ++ [l; []] → L ≠ [] → is_blank l = false.

(** * Properties *)

Local Open Scope nat_scope.

(** ** The scripts on small documents *)

Example complete_heading_spacing :
  fix_markdown_complete (doc ["Some text"; "# Heading"; "More text"]%string)
  = Some (doc ["Some text"; ""; "# Heading"; ""; "More text"; ""]%string).
Proof. by vm_compute. Qed.

Example complete_blank_run :
  fix_markdown_complete (doc ["a"; ""; ""; ""; "b"; ""; ""]%string)
  = Some (doc ["a"; ""; "b"; ""]%string).
Proof. by vm_compute. Qed.

Example complete_lists_and_fences :
  fix_markdown_complete
    (doc ["intro"; "- one"; "- two"; "```"; "|---|:-- :|"; "```"; "1. x";
          "end"]%string)
  = Some (doc ["intro"; ""; "- one"; "- two"; ""; "```text"; "";
               "| --- | :--: |"; ""; "```text"; ""; "1. x"; ""; "end";
               ""]%string).
Proof. by vm_compute. Qed.

Example errors_rules :
  fix_markdown_errors
    (doc ["## Section Title:"; "    - item"; "one "; "two  "; "say * it * now";
          "| a  | b |"; "|---|---|"; "```"; "# kept: "; "```"]%string)
  = Some (doc ["## Section Title"; "  - item"; "one"; "two  "; "say *it* now";
               "|a|b|"; "|---|---|"; "```"; "# kept: "; "```"]%string).
Proof. by vm_compute. Qed.

(** ** Characters and strings *)

Lemma eqb_true (a b : ascii) : Ascii.eqb a b = true ↔ a = b.
Proof. apply Ascii.eqb_eq. Qed.

Lemma eqb_false (a b : ascii) : Ascii.eqb a b = false ↔ a ≠ b.
Proof. apply Ascii.eqb_neq. Qed.

Lemma str_eqb_eq (a b : str) : str_eqb a b = true ↔ a = b.
Proof.
  revert b. induction a as [|x a IH]; intros [|y b]; simpl; try easy.
  rewrite andb_true_iff, eqb_true, IH. split; [intros [-> ->]|intros [= -> ->]]; done.
Qed.

Lemma startswith_app (p s : str) : startswith p (p ++ s) = true.
Proof. induction p as [|x p IH]; simpl; [done|]. by rewrite Ascii.eqb_refl. Qed.

Lemma startswith_spec (p s : str) : startswith p s = true ↔ ∃ t, s = p ++ t.
Proof.
  split.
  - revert s. induction p as [|x p IH]; intros s H; simpl in *; [by exists s|].
    destruct s as [|y s]; [done|]. apply andb_true_iff in H as [Hx Hp].
    apply eqb_true in Hx as ->. destruct (IH _ Hp) as [t ->]. by exists t.
  - intros [t ->]. apply startswith_app.
Qed.

(** *** [split] and [join] *)

Lemma split_not_nil (c : ascii) (s : str) : split c s ≠ [].
Proof.
  destruct s as [|x s]; simpl; [done|].
  destruct (Ascii.eqb x c); [done|]. by destruct (split c s).
Qed.

Lemma split_cons_ne (c x : ascii) (s : str) :
  x ≠ c → ∃ h r, split c s = h :: r ∧ split c (x :: s) = (x :: h) :: r.
Proof.
  intros Hx. simpl. apply eqb_false in Hx as ->.
  destruct (split c s) as [|h r] eqn:E; [by apply split_not_nil in E|].
  by exists h, r.
Qed.

Lemma join_cons (sep p : str) (r : list str) :
  r ≠ [] → join sep (p :: r) = p ++ sep ++ join sep r.
Proof. by destruct r. Qed.

Lemma join_split (c : ascii) (s : str) : join [c] (split c s) = s.
Proof.
  induction s as [|x s IH]; [done|].
  destruct (Ascii.eqb_spec x c) as [->|Hx].
  - simpl. rewrite Ascii.eqb_refl. rewrite join_cons by apply split_not_nil.
    simpl. by rewrite IH.
  - destruct (split_cons_ne c x s Hx) as (h & r & E & ->).
    rewrite E in IH. destruct r; simpl in *; by rewrite <- IH.
Qed.

Lemma split_no_sep (c : ascii) (s : str) :
  Forall (Forall (λ x, x ≠ c)) (split c s).
Proof.
  induction s as [|x s IH]; simpl; [by repeat constructor|].
  destruct (Ascii.eqb_spec x c) as [->|Hx]; [by constructor|].
  destruct (split c s) as [|h r]; [by repeat constructor|].
  inversion IH; subst. by repeat constructor.
Qed.

Lemma split_line (c : ascii) (l s : str) :
  Forall (λ x, x ≠ c) l → split c (l ++ c :: s) = l :: split c s.
Proof.
  induction 1 as [|x l Hx Hl IH]; simpl.
  - by rewrite Ascii.eqb_refl.
  - apply eqb_false in Hx as ->. by rewrite IH.
Qed.

Lemma split_plain (c : ascii) (l : str) :
  Forall (λ x, x ≠ c) l → split c l = [l].
Proof.
  induction 1 as [|x l Hx Hl IH]; simpl; [done|].
  apply eqb_false in Hx as ->. by rewrite IH.
Qed.

Lemma split_join (c : ascii) (L : list str) :
  L ≠ [] → Forall (Forall (λ x, x ≠ c)) L → split c (join [c] L) = L.
Proof.
  induction L as [|l L IH]; [done|]. intros _ H. inversion H; subst.
  destruct L as [|l' L]; [by apply split_plain|].
  rewrite join_cons by done. change ([c] ++ ?x) with (c :: x).
  rewrite split_line by done. f_equal. by apply IH.
Qed.

(** ** The matcher *)

Section star.
Context (p : ascii → bool) (caps : list (nat * str))
        (k : mstate → option mstate).

(** A success of a quantifier is a success of what follows it, after some
    run of characters of the class. *)
Lemma star_exec_sound g rest pos m :
  star_exec g p caps k rest pos = Some m →
  ∃ run tail, rest = run ++ tail ∧ Forall (λ c, p c = true) run
              ∧ k (MS (pos + length run) tail caps) = Some m.
Proof.
  revert pos. induction rest as [|c t IH]; intros pos H; simpl in H.
  - exists [], []. by rewrite Nat.add_0_r.
  - assert (∀ run tail, t = run ++ tail → Forall (λ c, p c = true) run →
              p c = true → k (MS (S pos + length run) tail caps) = Some m →
            ∃ run tail, c :: t = run ++ tail ∧ Forall (λ c, p c = true) run
                        ∧ k (MS (pos + length run) tail caps) = Some m) as Hs.
    { intros run tail -> Hrun Hc Hm. exists (c :: run), tail.
      split_and!; [done|by constructor|]. simpl. by rewrite Nat.add_succ_r. }
    assert (k (MS pos (c :: t) caps) = Some m →
            ∃ run tail, c :: t = run ++ tail ∧ Forall (λ c, p c = true) run
                        ∧ k (MS (pos + length run) tail caps) = Some m) as Hk.
    { intros E. exists [], (c :: t). by rewrite Nat.add_0_r. }
    destruct (p c) eqn:Hc; [|by apply Hk].
    destruct g.
    + destruct (star_exec true p caps k t (S pos)) eqn:E; [|by apply Hk].
      injection H as ->. apply IH in E as (run & tail & ? & ? & ?). eauto.
    + destruct (k (MS pos (c :: t) caps)) eqn:E; [apply Hk; congruence|].
      apply IH in H as (run & tail & ? & ? & ?). eauto.
Qed.

(** A greedy quantifier that can take the whole run, and succeed after it,
    does. *)
Lemma star_greedy_max run tail pos m :
  Forall (λ c, p c = true) run →
  (∀ c t, tail = c :: t → p c = false) →
  k (MS (pos + length run) tail caps) = Some m →
  star_exec true p caps k (run ++ tail) pos = Some m.
Proof.
  intros Hrun Htail. revert pos.
  induction Hrun as [|c run Hc Hrun IH]; intros pos Hk; simpl in *.
  - rewrite Nat.add_0_r in Hk. destruct tail as [|c t]; [done|].
    simpl. by rewrite (Htail c t eq_refl).
  - rewrite Hc. rewrite (IH (S pos)); [done|].
    by rewrite Nat.add_succ_l, <- Nat.add_succ_r.
Qed.

Lemma star_greedy_all run pos m :
  Forall (λ c, p c = true) run →
  k (MS (pos + length run) [] caps) = Some m →
  star_exec true p caps k run pos = Some m.
Proof.
  intros Hrun Hk. rewrite <- (app_nil_r run). by apply star_greedy_max.
Qed.

(** A greedy quantifier gives back characters until what follows
    succeeds. *)
Lemma star_greedy_back run back tail pos m :
  Forall (λ c, p c = true) (run ++ back) →
  (∀ c t, tail = c :: t → p c = false) →
  k (MS (pos + length run) (back ++ tail) caps) = Some m →
  (∀ a b, back = a ++ b → a ≠ [] →
          k (MS (pos + length run + length a) (b ++ tail) caps) = None) →
  star_exec true p caps k (run ++ back ++ tail) pos = Some m.
Proof.
  intros Hrun Htail. revert pos.
  induction run as [|c run IH]; intros pos Hk Hno; simpl in *.
  - rewrite Nat.add_0_r in *.
    destruct back as [|c back]; simpl in *.
    + destruct tail as [|c t]; [done|]. simpl. by rewrite (Htail c t eq_refl).
    + inversion Hrun as [|?? Hc Hback]; subst. rewrite Hc.
      destruct (star_exec true p caps k (back ++ tail) (S pos)) eqn:E; [|done].
      apply star_exec_sound in E as (r1 & t1 & E1 & Hr1 & Hm1).
      exfalso.
      assert (∃ b, back = r1 ++ b ∧ t1 = b ++ tail) as (b & -> & ->).
      { clear -E1 Hr1 Hback Htail. revert r1 E1 Hr1.
        induction Hback as [|x back Hx Hback IH]; intros r1 E1 Hr1; simpl in *.
        - destruct r1 as [|y r1]; [by exists []|]. simpl in E1. subst tail.
          inversion Hr1; subst. by rewrite (Htail y _ eq_refl) in *.
        - destruct r1 as [|y r1]; simpl in *.
          + exists (x :: back). by subst t1.
          + injection E1 as -> E1. inversion Hr1; subst.
            destruct (IH _ E1) as (b & -> & ->); [done|]. by exists b. }
      specialize (Hno (c :: r1) b eq_refl ltac:(done)). simpl in Hno.
      rewrite Nat.add_succ_r in Hno. simpl in Hm1. congruence.
  - inversion Hrun as [|?? Hc Hrun']; subst. rewrite Hc.
    rewrite (IH Hrun' (S pos)); [done| |].
    + by rewrite Nat.add_succ_l, <- Nat.add_succ_r.
    + intros a b E Ha. rewrite <- (Hno a b E Ha). f_equal. f_equal. lia.
Qed.

(** A lazy quantifier stops at the first place where what follows
    succeeds. *)
Lemma star_lazy_hit run tail pos m :
  Forall (λ c, p c = true) run →
  k (MS (pos + length run) tail caps) = Some m →
  (∀ a b, run = a ++ b → b ≠ [] →
          k (MS (pos + length a) (b ++ tail) caps) = None) →
  star_exec false p caps k (run ++ tail) pos = Some m.
Proof.
  intros Hrun. revert pos.
  induction Hrun as [|c run Hc Hrun IH]; intros pos Hk Hno; simpl in *.
  - rewrite Nat.add_0_r in Hk. destruct tail as [|c t]; [done|].
    simpl. destruct (p c); [|done]. by rewrite Hk.
  - rewrite Hc. pose proof (Hno [] (c :: run) eq_refl ltac:(done)) as H0.
    simpl in H0. rewrite Nat.add_0_r in H0. rewrite H0.
    apply IH; [by rewrite Nat.add_succ_l, <- Nat.add_succ_r|].
    intros a b -> Hb. specialize (Hno (c :: a) b eq_refl Hb).
    simpl in Hno. by rewrite Nat.add_succ_l, <- Nat.add_succ_r.
Qed.
End star.

(** Whatever the matcher returns went through the continuation, at a state
    the pattern leads to. *)
Lemma exec_sound r : ∀ st k m,
  exec r st k = Some m → ∃ st', den r st st' ∧ k st' = Some m.
Proof.
  induction r as [|p| | |a IHa b IHb|a IHa b IHb|g p|n a IHa];
    intros st k m H; simpl in H.
  - by exists st.
  - destruct (mrest st) as [|c t] eqn:E; [done|].
    destruct (p c) eqn:Hc; [|done]. eexists; split; [|done]. by exists c, t.
  - destruct (mpos st =? 0) eqn:E; [|done]. apply Nat.eqb_eq in E.
    by exists st.
  - destruct (mrest st) as [|c [|??]] eqn:E; [| |done].
    + exists st. simpl. rewrite E. auto.
    + destruct (Ascii.eqb_spec c NL) as [->|]; [|done]. exists st. simpl.
      rewrite E. auto.
  - apply IHa in H as (mid & Ha & H). apply IHb in H as (st' & Hb & H).
    exists st'. split; [by exists mid|done].
  - destruct (exec a st k) eqn:E.
    + injection H as ->. apply IHa in E as (st' & ? & ?). exists st'; simpl; auto.
    + apply IHb in H as (st' & ? & ?). exists st'; simpl; auto.
  - apply star_exec_sound in H as (run & tail & E & Hrun & H).
    eexists; split; [|done]. exists run. simpl. done.
  - apply IHa in H as (st1 & Ha & H). eexists; split; [|done]. by exists st1.
Qed.

Lemma re_match_sound r s m :
  re_match r s = Some m → den r (MS 0 s []) m.
Proof.
  intros H. apply exec_sound in H as (st' & Hd & [= ->]). done.
Qed.

Lemma den_consumed r : ∀ st st', den r st st' → ∃ w, consumed st st' w.
Proof.
  unfold consumed.
  induction r as [|p| | |a IHa b IHb|a IHa b IHb|g p|n a IHa];
    intros st st' H; simpl in H.
  - subst. exists []. simpl. split; [done|lia].
  - destruct H as (c & t & E & _ & ->). exists [c]. simpl. split; [done|lia].
  - destruct H as [_ ->]. exists []. simpl. split; [done|lia].
  - destruct H as [_ ->]. exists []. simpl. split; [done|lia].
  - destruct H as (mid & Ha & Hb).
    apply IHa in Ha as (w1 & E1 & P1). apply IHb in Hb as (w2 & E2 & P2).
    exists (w1 ++ w2). rewrite E1, E2, <- app_assoc, length_app.
    split; [done|lia].
  - destruct H as [H|H]; eauto.
  - destruct H as (run & _ & E & Hp & _). by exists run.
  - destruct H as (st1 & Ha & ->). apply IHa in Ha as (w & E & Hp).
    by exists w.
Qed.

(** Captured groups are pieces of the text. *)
Lemma den_caps_all (P : ascii → Prop) r : ∀ st st',
  den r st st' → Forall P (mrest st) → caps_all P (mcaps st) →
  caps_all P (mcaps st').
Proof.
  induction r as [|p| | |a IHa b IHb|a IHa b IHb|g p|n a IHa];
    intros st st' H Hrest Hcaps; simpl in H.
  - by subst.
  - by destruct H as (c & t & E & _ & ->).
  - by destruct H as [_ ->].
  - by destruct H as [_ ->].
  - destruct H as (mid & Ha & Hb).
    eapply IHb; [done| |by eapply IHa].
    apply den_consumed in Ha as (w & E & _). rewrite E in Hrest.
    by apply Forall_app in Hrest as [_ ?].
  - destruct H as [H|H]; eauto.
  - destruct H as (run & _ & _ & _ & ->). done.
  - destruct H as (st1 & Ha & ->). simpl. constructor; [|by eapply IHa].
    simpl. by apply Forall_take.
Qed.

Lemma assoc_caps_all (P : ascii → Prop) caps n s :
  caps_all P caps → assoc n caps = Some s → Forall P s.
Proof.
  induction 1 as [|[i x] caps Hx _ IH]; simpl; [done|].
  destruct (i =? n); [by intros [= <-]|done].
Qed.

Lemma re_match_group_all (P : ascii → Prop) r s m n g :
  Forall P s → re_match r s = Some m → group m n = Some g → Forall P g.
Proof.
  intros Hs Hm Hg. apply re_match_sound in Hm.
  eapply assoc_caps_all; [|done].
  eapply den_caps_all; [done|done|constructor].
Qed.

(** A group the pattern binds is bound after a match, and groups stay
    bound. *)
Lemma den_binds n r : ∀ st st',
  den r st st' →
  binds n r = true ∨ is_Some (assoc n (mcaps st)) →
  is_Some (assoc n (mcaps st')).
Proof.
  induction r as [|p| | |a IHa b IHb|a IHa b IHb|g p|j a IHa];
    intros st st' H Hn; simpl in *.
  - subst. by destruct Hn.
  - destruct H as (c & t & E & _ & ->). by destruct Hn.
  - destruct H as [_ ->]. by destruct Hn.
  - destruct H as [_ ->]. by destruct Hn.
  - destruct H as (mid & Ha & Hb). destruct Hn as [Hn|Hn].
    + apply orb_true_iff in Hn as [Hn|Hn]; eauto 6.
    + eauto.
  - destruct Hn as [Hn|Hn].
    + apply andb_true_iff in Hn as [??]. destruct H; eauto.
    + destruct H; eauto.
  - destruct H as (run & _ & _ & _ & ->). by destruct Hn.
  - destruct H as (st1 & Ha & ->). simpl.
    destruct (j =? n) eqn:E; [done|]. simpl in Hn. eauto.
Qed.

Lemma re_match_binds r s m n :
  re_match r s = Some m → binds n r = true → is_Some (group m n).
Proof.
  intros Hm Hn. apply re_match_sound in Hm. eapply den_binds; eauto.
Qed.

(** *** [re.sub] *)

Lemma re_sub_loop_skip r repl (a b : str) pos :
  re_sub_loop r repl (a ++ b) pos (length a)
  = re_sub_loop r repl b (pos + length a) 0.
Proof.
  revert pos. induction a as [|x a IH]; intros pos; simpl.
  - by rewrite Nat.add_0_r.
  - destruct a as [|y a]; simpl in *.
    + destruct b; simpl; [done|]. by rewrite Nat.add_1_r.
    + rewrite IH. f_equal. lia.
Qed.

(** Where the pattern matches nowhere, [re.sub] changes nothing. *)
Lemma re_sub_loop_none r repl (s : str) : ∀ pos,
  (∀ a b, s = a ++ b → exec r (MS (pos + length a) b []) Some = None) →
  re_sub_loop r repl s pos 0 = s.
Proof.
  induction s as [|c s IH]; intros pos H; simpl; [done|].
  pose proof (H [] (c :: s) eq_refl) as H0. simpl in H0.
  rewrite Nat.add_0_r in H0. rewrite H0. f_equal. apply IH.
  intros a b ->. specialize (H (c :: a) b eq_refl). simpl in H.
  by rewrite Nat.add_succ_r in H.
Qed.

(** Every character [re.sub] writes comes from the text or from a
    replacement. *)
Lemma re_sub_loop_all (P : ascii → Prop) r repl (s : str) :
  (∀ pos rest m, Forall P rest → exec r (MS pos rest []) Some = Some m →
                 Forall P (repl m)) →
  Forall P s → ∀ pos skip, Forall P (re_sub_loop r repl s pos skip).
Proof.
  intros Hrepl. induction 1 as [|c s Hc Hs IH]; intros pos skip; simpl.
  - constructor.
  - destruct skip; [|done].
    destruct (exec r (MS pos (c :: s) []) Some) eqn:E.
    + apply Forall_app. split; [|done].
      eapply Hrepl; [|done]. by constructor.
    + by constructor.
Qed.

Lemma re_sub_loop_match r repl c (t : str) pos m :
  exec r (MS pos (c :: t) []) Some = Some m →
  re_sub_loop r repl (c :: t) pos 0
  = repl m ++ re_sub_loop r repl t (S pos) (mpos m - pos - 1).
Proof. intros H. simpl. by rewrite H. Qed.

(** ** String operations keep the characters of their input *)

Section all_chars.
Context (P : ascii → Prop).

Lemma lstrip_by_all p (s : str) : Forall P s → Forall P (lstrip_by p s).
Proof.
  induction 1 as [|c s Hc Hs IH]; simpl; [done|].
  destruct (p c); [done|by constructor].
Qed.

Lemma rstrip_by_all p (s : str) : Forall P s → Forall P (rstrip_by p s).
Proof.
  induction 1 as [|c s Hc Hs IH]; simpl; [done|].
  destruct (rstrip_by p s); [|by constructor].
  destruct (p c); by repeat constructor.
Qed.

Lemma strip_all (s : str) : Forall P s → Forall P (strip s).
Proof. intros. by apply rstrip_by_all, lstrip_by_all. Qed.

Lemma replace_first_all old new (s : str) :
  Forall P new → Forall P s → Forall P (replace_first old new s).
Proof.
  intros Hnew. induction 1 as [|c s Hc Hs IH].
  - simpl. destruct (startswith old []); [|done].
    apply Forall_app. split; [done|]. rewrite drop_nil. constructor.
  - cbn [replace_first]. destruct (startswith old (c :: s)).
    + apply Forall_app. split; [done|]. apply Forall_drop. by constructor.
    + by constructor.
Qed.

Lemma replace_char_all c new (s : str) :
  Forall P new → Forall P s → Forall P (replace_char c new s).
Proof.
  intros Hnew. unfold replace_char. induction 1 as [|x s Hx Hs IH]; simpl.
  - constructor.
  - apply Forall_app. split; [|done].
    destruct (Ascii.eqb x c); [done|by repeat constructor].
Qed.

Lemma join_all sep (L : list str) :
  Forall P sep → Forall (Forall P) L → Forall P (join sep L).
Proof.
  intros Hsep. induction 1 as [|l L Hl HL IH]; [constructor|].
  destruct L as [|l' L]; [done|]. rewrite join_cons by done.
  rewrite !Forall_app. auto.
Qed.

Lemma split_all c (s : str) : Forall P s → Forall (Forall P) (split c s).
Proof.
  induction 1 as [|x s Hx Hs IH]; simpl; [by repeat constructor|].
  destruct (Ascii.eqb x c); [by constructor|].
  destruct (split c s) as [|h r]; [by repeat constructor|].
  inversion IH; subst. by repeat constructor.
Qed.
End all_chars.

Lemma Forall_imap {A B} (Q : A → Prop) (R : B → Prop) (l : list A) :
  ∀ f : nat → A → B, (∀ j x, Q x → R (f j x)) → Forall Q l → Forall R (imap f l).
Proof.
  induction l as [|x l IH]; intros f Hf H; simpl; [constructor|].
  inversion H; subst. constructor; [by apply Hf|]. apply IH; [|done].
  intros j y. apply Hf.
Qed.

(** ** fix_markdown_errors: the loop and its view *)

Arguments txt : simpl never.
Arguments startswith : simpl never.
Arguments endswith : simpl never.
Arguments strip : simpl never.
Arguments matches : simpl never.
Arguments re_match : simpl never.
Arguments rewrite_line : simpl never.
Arguments is_code_fence : simpl never.
Arguments is_list : simpl never.
Arguments is_blank : simpl never.

Lemma md026_total line : is_Some (md026 line).
Proof.
  unfold md026. destruct (startswith _ line); [|done].
  destruct (re_match heading_punct_re line) as [m|] eqn:E; [|done].
  destruct (re_match_binds _ _ _ 1 E eq_refl) as [g1 ->].
  destruct (re_match_binds _ _ _ 3 E eq_refl) as [g3 ->]. done.
Qed.

Lemma rewrite_line_total line : is_Some (rewrite_line line).
Proof.
  unfold rewrite_line. destruct (md026_total line) as [l ->]. done.
Qed.

Lemma md026_all (P : ascii → Prop) line l :
  Forall P line → md026 line = Some l → Forall P l.
Proof.
  unfold md026. intros Hl. destruct (startswith _ line); [|by intros [= <-]].
  destruct (re_match heading_punct_re line) as [m|] eqn:E; [|by intros [= <-]].
  destruct (group m 1) as [g1|] eqn:E1; [|done].
  destruct (group m 3) as [g3|] eqn:E3; [|done]. intros [= <-].
  apply Forall_app; split; by eapply re_match_group_all.
Qed.

Lemma md037_all (P : ascii → Prop) line :
  P "*" → Forall P line → Forall P (md037 line).
Proof.
  intros Hstar Hl. unfold md037, re_sub. apply re_sub_loop_all; [|done].
  intros pos rest m Hrest Hm.
  apply exec_sound in Hm as (st' & Hd & [= ->]).
  rewrite !Forall_app. split_and!; [by repeat constructor| |by repeat constructor].
  unfold backref, group. destruct (assoc 1 (mcaps m)) as [g|] eqn:E; [|constructor].
  eapply assoc_caps_all; [|done]. eapply den_caps_all; [done|done|constructor].
Qed.

Lemma md060_all (P : ascii → Prop) line :
  P "|" → Forall P line → Forall P (md060 line).
Proof.
  intros Hbar Hl. unfold md060.
  destruct (contains _ line && _); [|done].
  destruct (negb _); [|done].
  apply join_all; [by repeat constructor|].
  unfold compact_cells.
  eapply Forall_imap; [|by apply split_all].
  intros j x Hx. simpl. destruct (_ || _); [done|by apply strip_all].
Qed.

Lemma rewrite_line_all (P : ascii → Prop) line l :
  P "*" → P "|" → P " " → Forall P line → rewrite_line line = Some l →
  Forall P l.
Proof.
  intros Hstar Hbar Hsp Hl. unfold rewrite_line.
  destruct (md026 line) as [l1|] eqn:E; [|done]. simpl. intros [= <-].
  apply md060_all, md037_all; try done.
  assert (Forall P (md007 l1)) as H7.
  { unfold md007. destruct (matches _ _); [|by eapply md026_all].
    apply replace_first_all; [by repeat constructor|by eapply md026_all]. }
  assert (md029 (md007 l1) = md007 l1) as ->.
  { unfold md029. by destruct (re_match _ _). }
  unfold md009. destruct (_ && _); [by apply rstrip_by_all|done].
Qed.

Lemma for_each_errors_body L : ∀ b acc,
  for_each errors_body L (b, acc)
  = out ← errors_lines b L; Some (fence_state b L, acc ++ out).
Proof.
  induction L as [|l L IH]; intros b acc; simpl.
  - by rewrite app_nil_r.
  - unfold is_code_fence. destruct (startswith _ (strip l)) eqn:Hf; simpl.
    + rewrite IH. destruct (errors_lines (negb b) L); simpl; [|done].
      by rewrite <- app_assoc.
    + destruct b; simpl.
      * rewrite IH. destruct (errors_lines true L); simpl; [|done].
        by rewrite <- app_assoc.
      * destruct (rewrite_line l) as [l'|]; simpl; [|done].
        rewrite IH. destruct (errors_lines false L); simpl; [|done].
        by rewrite <- app_assoc.
Qed.

Lemma errors_lines_total L : ∀ b,
  ∃ out, errors_lines b L = Some out ∧ length out = length L.
Proof.
  induction L as [|l L IH]; intros b; simpl; [by exists []|].
  destruct (is_code_fence l).
  - destruct (IH (negb b)) as (out & -> & Hlen). exists (l :: out). simpl. auto.
  - destruct b.
    + destruct (IH true) as (out & -> & Hlen). exists (l :: out). simpl. auto.
    + destruct (rewrite_line_total l) as [l' ->]. simpl.
      destruct (IH false) as (out & -> & Hlen). exists (l' :: out). simpl. auto.
Qed.

Lemma errors_lines_all (P : ascii → Prop) L :
  P "*" → P "|" → P " " → Forall (Forall P) L →
  ∀ b out, errors_lines b L = Some out → Forall (Forall P) out.
Proof.
  intros Hstar Hbar Hsp. induction 1 as [|l L Hl HL IH]; intros b out; simpl.
  - by intros [= <-].
  - destruct (is_code_fence l).
    + destruct (errors_lines (negb b) L) eqn:E; [|done]. intros [= <-].
      constructor; eauto.
    + destruct b.
      * destruct (errors_lines true L) eqn:E; [|done]. intros [= <-].
        constructor; eauto.
      * destruct (rewrite_line l) as [l'|] eqn:El; [|done]. simpl.
        destruct (errors_lines false L) eqn:E; [|done]. intros [= <-].
        constructor; [by eapply rewrite_line_all|eauto].
Qed.

(** [fix_markdown_errors] as a function of the lines. *)
Lemma fix_markdown_errors_lines content :
  ∃ out, errors_lines false (split NL content) = Some out
         ∧ length out = length (split NL content)
         ∧ fix_markdown_errors content = Some (join [NL] out)
         ∧ split NL (join [NL] out) = out.
Proof.
  destruct (errors_lines_total (split NL content) false) as (out & E & Hlen).
  exists out. split_and!; [done|done| |].
  - unfold fix_markdown_errors. rewrite for_each_errors_body, E. done.
  - apply split_join.
    + intros ->. simpl in Hlen. symmetry in Hlen.
      apply length_zero_iff_nil in Hlen. by apply split_not_nil in Hlen.
    + eapply (errors_lines_all (λ x, x ≠ NL)); [done|done|done| |done].
      apply split_no_sep.
Qed.

(** ** Fences in [fix_markdown_errors] *)

Lemma fence_state_app b L1 L2 :
  fence_state b (L1 ++ L2) = fence_state (fence_state b L1) L2.
Proof. apply fold_left_app. Qed.

Lemma fence_state_plain b L :
  Forall (λ l, is_code_fence l = false) L → fence_state b L = b.
Proof.
  intros H. revert b. induction H as [|l L Hl _ IH]; intros b; [done|].
  unfold fence_state in *. simpl. rewrite Hl. apply IH.
Qed.

Lemma errors_lines_lookup L : ∀ b out i l,
  errors_lines b L = Some out → L !! i = Some l →
  is_code_fence l = true ∨ fence_state b (take i L) = true
  ∨ rewrite_line l = Some l →
  out !! i = Some l.
Proof.
  induction L as [|x L IH]; intros b out i l Hout Hi Hl; [done|].
  simpl in Hout. destruct i as [|i]; simpl in Hi.
  - injection Hi as ->. simpl in Hl.
    revert Hout. destruct (is_code_fence l) eqn:Hf; intros Hout.
    + destruct (errors_lines (negb b) L); by inversion Hout.
    + destruct b.
      * destruct (errors_lines true L); by inversion Hout.
      * destruct Hl as [?|[?|Hr]]; [done|done|]. rewrite Hr in Hout.
        simpl in Hout. destruct (errors_lines false L); by inversion Hout.
  - assert (∀ b' o', errors_lines b' L = Some o' →
              fence_state b (take (S i) (x :: L)) = fence_state b' (take i L) →
              o' !! i = Some l) as Hrec.
    { intros b' o' E Hst. eapply IH; [done|done|].
      destruct Hl as [?|[Hb|?]]; [by left| |by right; right].
      right; left; congruence. }
    assert (fence_state b (take (S i) (x :: L))
            = fence_state (if is_code_fence x then negb b else b) (take i L))
      as Hst by done.
    revert Hout Hst. destruct (is_code_fence x); intros Hout Hst.
    + destruct (errors_lines (negb b) L) eqn:E; [|done].
      injection Hout as <-. simpl. eapply Hrec; [done|]. by apply Hst.
    + destruct b.
      * destruct (errors_lines true L) eqn:E; [|done].
        injection Hout as <-. simpl. eapply Hrec; [done|]. by apply Hst.
      * destruct (rewrite_line x); [|done]. simpl in Hout.
        destruct (errors_lines false L) eqn:E; [|done].
        injection Hout as <-. simpl. eapply Hrec; [done|]. by apply Hst.
Qed.

(** A line strictly inside a fence is not a delimiter and is met with
    [in_code_block] set. *)
Lemma inside_fence_state L i l :
  inside_fence L i → L !! i = Some l →
  is_code_fence l = false ∧ fence_state false (take i L) = true.
Proof.
  intros (o & c & [Hoi Hic] & [(lo & Ho & Hfo) Hst] & _ & Hmid) Hi.
  split; [by apply (Hmid i l)|].
  assert (take i L = take o L ++ [lo] ++ drop (S o) (take i L)) as ->.
  { rewrite <- (take_drop (S o) (take i L)) at 1.
    rewrite take_take, Nat.min_l by lia.
    by rewrite (take_S_r _ _ _ Ho), <- app_assoc. }
  rewrite !fence_state_app, Hst. unfold fence_state at 2. simpl. rewrite Hfo.
  apply fence_state_plain. apply Forall_forall. intros x Hx.
  apply list_elem_of_lookup in Hx as [j Hj].
  rewrite lookup_drop in Hj.
  assert (S o + j < i) as Hlt.
  { apply lookup_lt_Some in Hj. rewrite length_take in Hj. lia. }
  rewrite lookup_take_lt in Hj by done.
  apply (Hmid (S o + j) x); [lia|done].
Qed.

(** C1, as far as it holds: in [fix_markdown_errors] every line strictly
    between a fence-opening delimiter and its closing delimiter is emitted
    unchanged, at the same line number of the output. *)
Theorem errors_fence_safe content i line :
  split NL content !! i = Some line →
  inside_fence (split NL content) i →
  ∃ out, fix_markdown_errors content = Some out
         ∧ split NL out !! i = Some line.
Proof.
  intros Hi Hin.
  destruct (fix_markdown_errors_lines content) as (out & E & _ & Hfix & Hs).
  exists (join [NL] out). split; [done|]. rewrite Hs.
  destruct (inside_fence_state _ _ _ Hin Hi) as [_ Hst].
  eapply errors_lines_lookup; eauto.
Qed.

Lemma errors_fence_safe_witness :
  ∃ out, fix_markdown_errors (doc ["```"; "* a *"; "```"]%string) = Some out
         ∧ split NL out !! 1 = Some (txt "* a *").
Proof.
  apply (errors_fence_safe (doc ["```"; "* a *"; "```"]%string) 1 (txt "* a *")).
  - reflexivity.
  - exists 0, 2. split; [lia|]. split; [|split].
    + split; [|reflexivity]. eexists. split; reflexivity.
    + eexists. split; reflexivity.
    + intros j l Hj. assert (j = 1) as -> by lia. by intros [= <-].
Defined.

(** C1 fails for [fix_markdown_complete], which keeps no fence state: a
    table separator inside a fence is rewritten, and the line as it was is
    nowhere in the output. *)
Lemma complete_not_fence_safe : ¬ fence_safe fix_markdown_complete.
Proof.
  intros H.
  destruct (H (doc ["```py"; "|- -|"; "```"]%string) 1 (txt "|- -|")) as (out & E & Hin).
  - reflexivity.
  - exists 0, 2. split; [lia|]. split; [|split].
    + split; [|reflexivity]. eexists. split; reflexivity.
    + eexists. split; reflexivity.
    + intros j l Hj. assert (j = 1) as -> by lia. by intros [= <-].
  - vm_compute in E. injection E as <-. vm_compute in Hin.
    repeat (apply elem_of_cons in Hin as [Hin|Hin]; [discriminate|]).
    by apply elem_of_nil in Hin.
Qed.

(** C10: [fix_markdown_errors] returns as many lines as it was given. *)
Theorem errors_line_count content :
  ∃ out, fix_markdown_errors content = Some out
         ∧ length (split NL out) = length (split NL content).
Proof.
  destruct (fix_markdown_errors_lines content) as (out & _ & Hlen & Hfix & E).
  exists (join [NL] out). by rewrite E.
Qed.

(** ** fix_markdown_complete: the loops and their views *)

#[local] Arguments Ascii.eqb : simpl never.
Arguments first_pass_body : simpl never.
Arguments second_pass_body : simpl never.
Arguments fix_line : simpl never.
Arguments heading_like : simpl never.
Arguments blanks_before : simpl never.
Arguments blanks_after : simpl never.

Lemma setitem_middle {A} (D T : list A) (x v : A) :
  setitem (length D) v (D ++ x :: T) = Some (D ++ v :: T).
Proof.
  unfold setitem. rewrite decide_True.
  - pose proof (insert_app_r D (x :: T) 0 v) as H.
    rewrite Nat.add_0_r in H. by rewrite H.
  - rewrite length_app. simpl. lia.
Qed.

Lemma first_pass_body_middle (D T : list str) (l : str) :
  first_pass_body (D ++ l :: T) (length D) = Some (D ++ fix_line l :: T).
Proof.
  unfold first_pass_body, fix_line.
  rewrite list_lookup_middle by done. simpl.
  destruct (str_eqb (strip l) (txt "```")).
  - rewrite setitem_middle. simpl.
    destruct (matches table_sep_re l); [|done]. by rewrite setitem_middle.
  - simpl. destruct (matches table_sep_re l); [|done]. by rewrite setitem_middle.
Qed.

Lemma first_pass_from (T : list str) : ∀ D : list str,
  for_each first_pass_body (seq (length D) (length T)) (D ++ T)
  = Some (D ++ (fix_line <$> T)).
Proof.
  induction T as [|l T IH]; intros D; simpl.
  - done.
  - rewrite first_pass_body_middle. simpl.
    specialize (IH (D ++ [fix_line l])).
    rewrite length_app, Nat.add_1_r, <- !app_assoc in IH. apply IH.
Qed.

(** The first pass rewrites every line on its own. *)
Lemma first_pass_view (L : list str) :
  first_pass L = Some (fix_line <$> L).
Proof. apply (first_pass_from L []). Qed.

Lemma startswith_hash (l : str) :
  startswith (txt "#") l
  = match l with h :: _ => Ascii.eqb h "#" | [] => false end.
Proof.
  destruct l as [|h l]; [done|]. unfold startswith, txt. simpl.
  by rewrite andb_true_r, Ascii.eqb_sym.
Qed.

Lemma is_heading_view (l : str) : is_heading l = Some (heading_like l).
Proof.
  unfold is_heading, heading_like. rewrite startswith_hash.
  destruct l as [|h [|c l]]; simpl; try done.
  - by rewrite andb_false_r.
  - by destruct (Ascii.eqb h "#").
Qed.

Lemma append_if_replicate b (r : list str) :
  append_if b r = r ++ replicate (b2n b) [].
Proof. destruct b; simpl; [done|by rewrite app_nil_r]. Qed.

Lemma second_pass_body_middle (D T acc : list str) (l : str) :
  second_pass_body (D ++ l :: T) acc (length D, l)
  = Some (acc ++ emitted (default [] (last D)) l (hd [] T)).
Proof.
  unfold second_pass_body.
  assert ((if (0 <? length D) then (D ++ l :: T) !! (length D - 1) else Some [])
          = Some (default [] (last D))) as ->.
  { destruct D as [|d D _] using rev_ind; [done|].
    rewrite length_app, last_snoc. simpl length.
    replace (length D + 1 - 1) with (length D) by lia.
    replace (0 <? length D + 1) with true by (symmetry; apply Nat.ltb_lt; lia).
    rewrite <- app_assoc. simpl. by rewrite list_lookup_middle. }
  assert ((if (length D <? length (D ++ l :: T) - 1)
           then (D ++ l :: T) !! (length D + 1) else Some [])
          = Some (hd [] T)) as ->.
  { rewrite length_app. simpl length. destruct T as [|t T]; simpl length.
    - replace (length D <? length D + 1 - 1) with false
        by (symmetry; apply Nat.ltb_ge; lia). done.
    - replace (length D <? length D + S (S (length T)) - 1) with true
        by (symmetry; apply Nat.ltb_lt; lia).
      rewrite (cons_middle l), app_assoc.
      replace (length D + 1) with (length (D ++ [l]))
        by (rewrite length_app; simpl; lia).
      by rewrite list_lookup_middle. }
  simpl. rewrite !is_heading_view. simpl. f_equal.
  rewrite !append_if_replicate. unfold emitted, blanks_before, blanks_after.
  rewrite !replicate_add, <- !app_assoc. done.
Qed.

Lemma second_pass_from (L : list str) (T : list str) : ∀ D acc,
  L = D ++ T →
  for_each (second_pass_body L) (imap (λ i x, (length D + i, x)) T) acc
  = Some (acc ++ blank_pass (default [] (last D)) T).
Proof.
  induction T as [|l T IH]; intros D acc ->; simpl.
  - by rewrite app_nil_r.
  - rewrite Nat.add_0_r, second_pass_body_middle. simpl.
    specialize (IH (D ++ [l]) (acc ++ emitted (default [] (last D)) l (hd [] T))).
    rewrite last_snoc, <- !app_assoc in IH. simpl in IH.
    rewrite <- IH by done. f_equal. apply imap_ext. intros i x _. simpl.
    rewrite length_app. simpl. f_equal. lia.
Qed.

(** The second pass writes, for every line, the blank lines its neighbours
    call for and the line. *)
Lemma second_pass_view (L : list str) :
  second_pass L = Some (blank_pass [] L).
Proof. apply (second_pass_from L L [] []). done. Qed.

(** [fix_markdown_complete] as a composition of its passes. *)
Lemma fix_markdown_complete_view content :
  fix_markdown_complete content
  = Some (single_trailing_newline (collapse_blank_runs
            (join [NL] (blank_pass [] (fix_line <$> split NL content))))).
Proof.
  unfold fix_markdown_complete. rewrite first_pass_view. simpl.
  rewrite second_pass_view. done.
Qed.

(** ** Lines no rule matches *)








(** ** Stripping on the right *)

Lemma rstrip_by_app p (s t : str) :
  rstrip_by p (s ++ t)
  = match rstrip_by p t with [] => rstrip_by p s | r => s ++ r end.
Proof.
  induction s as [|c s IH]; simpl.
  - by destruct (rstrip_by p t).
  - rewrite IH. destruct (rstrip_by p t); [done|]. by destruct s.
Qed.

Lemma rstrip_by_all_dropped p (t : str) :
  Forall (λ c, p c = true) t → rstrip_by p t = [].
Proof. induction 1 as [|c t Hc _ IH]; simpl; [done|]. by rewrite IH, Hc. Qed.

Lemma rstrip_by_split p (s : str) :
  ∃ tail, s = rstrip_by p s ++ tail ∧ Forall (λ c, p c = true) tail.
Proof.
  induction s as [|c s (tail & E & Ht)]; simpl; [by exists []|].
  destruct (rstrip_by p s) as [|x r] eqn:Er.
  - destruct (p c) eqn:Hc.
    + exists (c :: s). split; [done|]. simpl in E. rewrite E. by constructor.
    + exists s. split; [done|]. simpl in E. by rewrite E.
  - exists tail. split; [|done]. rewrite E at 1. done.
Qed.

Lemma rstrip_by_last p (s : str) c :
  last (rstrip_by p s) = Some c → p c = false.
Proof.
  induction s as [|x s IH]; simpl; [done|].
  destruct (rstrip_by p s) as [|y r] eqn:Er.
  - destruct (p x) eqn:Hx; simpl; [done|]. by intros [= <-].
  - intros H. apply IH. by rewrite <- H.
Qed.

Lemma rstrip_by_fixed p (s : str) :
  (∀ c, last s = Some c → p c = false) → rstrip_by p s = s.
Proof.
  induction s as [|x s IH]; simpl; [done|]. intros H.
  destruct s as [|y s].
  - simpl. by rewrite (H x eq_refl).
  - rewrite IH; [done|]. intros c Hc. apply H. by rewrite <- Hc.
Qed.

Lemma rstrip_by_idemp p (s : str) : rstrip_by p (rstrip_by p s) = rstrip_by p s.
Proof. apply rstrip_by_fixed. apply rstrip_by_last. Qed.

Lemma all_newlines (t : str) :
  Forall (λ c, is_char NL c = true) t → t = replicate (length t) NL.
Proof.
  induction 1 as [|c t Hc _ IH]; simpl; [done|].
  apply eqb_true in Hc as ->. by rewrite <- IH.
Qed.

(** ** The end of the output of [fix_markdown_complete] *)

(** C8, as far as it holds: the output is the text, all its trailing
    newlines dropped, and one newline: it ends in exactly one. *)
Theorem complete_single_trailing_newline content :
  ∃ text body k,
    fix_markdown_complete content = Some (body ++ [NL])
    ∧ last body ≠ Some NL
    ∧ text = body ++ replicate k NL
    ∧ text = collapse_blank_runs
               (join [NL] (blank_pass [] (fix_line <$> split NL content))).
Proof.
  rewrite fix_markdown_complete_view.
  set (text := collapse_blank_runs _).
  destruct (rstrip_by_split (is_char NL) text) as (tail & E & Ht).
  exists text, (rstrip_by (is_char NL) text), (length tail).
  split_and!; [done| |by rewrite <- all_newlines|done].
  intros H. by apply rstrip_by_last in H.
Qed.

(** C8 as stated fails on the trailing blank lines: what is trimmed is a
    run of newlines, so a last line of whitespace stays.  The text of the
    lines [a] and one space, ended by a newline, comes back as it is. *)
Lemma complete_keeps_trailing_blank_line :
  fix_markdown_complete (doc ["a"; " "; ""]%string)
  = Some (doc ["a"; " "; ""]%string)
  ∧ ¬ (∀ content, ∃ out, fix_markdown_complete content = Some out
                         ∧ trailing_blank_lines_trimmed out).
Proof.
  split; [by vm_compute|]. intros H.
  destruct (H (doc ["a"; " "; ""]%string)) as (out & E & Ht).
  vm_compute in E. injection E as <-.
  specialize (Ht [txt "a"] (txt " ") eq_refl ltac:(done)).
  vm_compute in Ht. discriminate Ht.
Qed.

(** ** MD009 and MD026 *)

Lemma endswith_app (p s : str) : endswith p (s ++ p) = true.
Proof. unfold endswith. rewrite rev_app_distr. apply startswith_app. Qed.

(** MD009 where it does what its comment says: one trailing space goes. *)
Lemma md009_one_space (body : str) :
  (∀ c, last body = Some c → c ≠ " ") →
  md009 (body ++ txt " ") = rstrip body.
Proof.
  intros Hlast. unfold md009.
  rewrite (endswith_app (txt " ")). unfold endswith.
  rewrite rev_app_distr. change (rev (txt " ")) with [" "].
  change (rev (txt "  ")) with [" "; " "]. cbn [app].
  assert (startswith [" "; " "] (" " :: rev body) = false) as ->.
  { destruct body as [|c body _] using rev_ind; [done|].
    rewrite rev_app_distr. cbn [rev app]. unfold startswith.
    specialize (Hlast c). rewrite last_snoc in Hlast.
    specialize (Hlast eq_refl). apply not_eq_sym, eqb_false in Hlast.
    rewrite Ascii.eqb_refl, Hlast. done. }
  cbn [negb andb]. unfold rstrip. rewrite rstrip_by_app. done.
Qed.

(** C4 at its failing input: a line ending in three spaces also ends in two,
    so the guard of MD009, which keeps every line that ends in two spaces,
    leaves it alone, and so does the whole function. *)
Theorem md009_three_spaces_kept :
  (∀ body, md009 (body ++ txt "  ") = body ++ txt "  ")
  ∧ md009 (txt "a   ") = txt "a   "
  ∧ fix_markdown_errors (txt "a   ") = Some (txt "a   ").
Proof.
  split_and!; [|by vm_compute|by vm_compute].
  intros body. unfold md009.
  by rewrite (endswith_app (txt "  ")), andb_false_r.
Qed.

Lemma punct_cases c :
  one_of ".,;:" c = true → c = "." ∨ c = "," ∨ c = ";" ∨ c = ":".
Proof.
  unfold one_of. simpl. rewrite !orb_true_iff, !eqb_true. intuition discriminate.
Qed.

Lemma punct_not_space c : one_of ".,;:" c = true → isspace c = false.
Proof. intros H. by destruct (punct_cases c H) as [-> | [-> | [-> | ->]]]. Qed.

Lemma punct_not_NL c : one_of ".,;:" c = true → c ≠ NL.
Proof. intros H. by destruct (punct_cases c H) as [-> | [-> | [-> | ->]]]. Qed.

Lemma NL_space : isspace NL = true.
Proof. done. Qed.


Lemma heading_tail_den st st' :
  den heading_tail_re st st' →
  ∃ P W, mrest st = P ++ W ∧ P ≠ []
         ∧ Forall (λ c, one_of ".,;:" c = true) P
         ∧ Forall (λ c, isspace c = true) W.
Proof.
  unfold heading_tail_re, cat, Plus. simpl.
  intros (m1 & (m2 & (m3 & (c & t & E & Hc & ->) & (run & Hrun & E2 & _)) & ->)
          & m4 & (m5 & (W & HW & E3 & _) & ->) & m6 & [He ->] & ->).
  simpl in *. exists (c :: run), (W ++ mrest m5). rewrite E, E2, E3.
  split_and!; [done|done|by constructor|].
  apply Forall_app. split; [done|].
  destruct He as [->| ->]; by repeat constructor.
Qed.
Lemma heading_tail_exec pos caps (ps trail : str) p0 :
  one_of ".,;:" p0 = true →
  Forall (λ c, one_of ".,;:" c = true) ps →
  Forall (λ c, isspace c = true) trail →
  exec heading_tail_re (MS pos (p0 :: ps ++ trail) caps) Some
  = Some (MS (S pos + length ps + length trail) []
             ((3, trail) :: (2, p0 :: ps) :: caps)).
Proof.
  intros Hp0 Hps Htrail. unfold heading_tail_re, cat, Plus.
  cbn [fold_right exec mrest mpos mcaps]. rewrite Hp0.
  apply star_greedy_max; [done| |].
  { intros c t ->. inversion Htrail; subst.
    destruct (one_of ".,;:" c) eqn:E; [|done].
    apply punct_not_space in E. congruence. }
  cbn [mrest mpos mcaps].
  apply star_greedy_all; [done|].
  cbn [mrest mpos mcaps]. f_equal. f_equal. f_equal.
  - f_equal. rewrite take_ge; [done|lia].
  - f_equal. f_equal.
    apply (take_app_length' (p0 :: ps)). simpl. lia.
Qed.

Lemma heading_tail_none pos caps (b rest : str) x p0 :
  one_of ".,;:" x = false → one_of ".,;:" p0 = true →
  exec heading_tail_re (MS pos (b ++ x :: p0 :: rest) caps) Some = None.
Proof.
  intros Hx Hp0.
  destruct (exec _ _ _) as [m|] eqn:E; [exfalso|done].
  apply exec_sound in E as (st' & Hd & _).
  apply heading_tail_den in Hd as (P & W & E & _ & HP & HW). simpl in E.
  apply app_eq_inv in E as [(k & -> & ->)|(k & -> & E)].
  - rewrite Forall_app, Forall_cons in HW. destruct HW as (_ & _ & HW).
    inversion HW; subst. apply punct_not_space in Hp0. congruence.
  - destruct k as [|y k]; simpl in E.
    + subst W. inversion HW as [|?? _ HW']; subst. inversion HW'; subst.
      apply punct_not_space in Hp0. congruence.
    + injection E as -> _. apply Forall_app in HP as [_ HP].
      inversion HP; subst. congruence.
Qed.
Lemma last_suffix {A} (a b : list A) : b ≠ [] → last (a ++ b) = last b.
Proof.
  intros Hb. destruct b as [|x b] using rev_ind; [done|].
  by rewrite app_assoc, !last_snoc.
Qed.

Lemma heading_punct_match (hs ws bs ps trail : str) w0 b0 p0 x :
  Forall (λ c, is_char "#" c = true) hs →
  Forall (λ c, isspace c = true) (w0 :: ws) →
  isspace b0 = false →
  Forall (λ c, dot c = true) (b0 :: bs) →
  last (b0 :: bs) = Some x → one_of ".,;:" x = false →
  Forall (λ c, one_of ".,;:" c = true) (p0 :: ps) →
  Forall (λ c, isspace c = true) trail →
  ∃ m, re_match heading_punct_re
         (("#" :: hs) ++ (w0 :: ws) ++ (b0 :: bs) ++ (p0 :: ps) ++ trail) = Some m
       ∧ group m 1 = Some (("#" :: hs) ++ (w0 :: ws) ++ (b0 :: bs))
       ∧ group m 3 = Some trail.
Proof.
  intros Hhs Hws Hb0 Hbs Hlast Hx Hps Htrail.
  inversion Hws as [|?? Hw0 Hws']; subst.
  inversion Hbs as [|?? Hd0 Hbs']; subst.
  inversion Hps as [|?? Hp0 Hps']; subst.
  eexists. split.
  - unfold re_match.
    change heading_punct_re with
      (Seq Bol (Seq (Grp 1 (cat [Plus true (is_char "#"); Plus true isspace;
                                 Plus false dot])) heading_tail_re)).
    unfold cat, Plus. cbn [fold_right exec mrest mpos mcaps Nat.eqb app].
    change (is_char "#" "#") with true. cbn iota.
    apply star_greedy_max; [done| |].
    { intros c t [= <- _]. destruct (is_char "#" w0) eqn:E; [|done].
      apply eqb_true in E. subst w0. done. }
    cbn [mrest mpos mcaps]. rewrite Hw0.
    apply star_greedy_max; [done| |].
    { by intros c t [= <- _]. }
    cbn [mrest mpos mcaps]. rewrite Hd0.
    apply star_lazy_hit; [done| |].
    + cbn [mrest mpos mcaps]. apply heading_tail_exec; done.
    + intros a b -> Hb. cbn [mrest mpos mcaps].
      assert (∃ b', b = b' ++ [x]) as [b' ->].
      { destruct b as [|y b _] using rev_ind; [done|]. exists b.
        rewrite app_assoc, app_comm_cons, last_snoc in Hlast. congruence. }
      rewrite <- app_assoc. simpl. by apply heading_tail_none.
  - split; [|done]. unfold group. cbn [assoc mcaps Nat.eqb]. f_equal.
    rewrite Nat.sub_0_r.
    rewrite !app_comm_cons, !app_assoc, <- (app_assoc _ _ trail).
    apply take_app_length'. simpl. rewrite ?length_app. simpl.
    rewrite ?length_app. simpl. lia.
Qed.

Lemma md026_unmatched line :
  (∀ c, last (rstrip line) = Some c → one_of ".,;:" c = false) →
  md026 line = Some line.
Proof.
  intros Hlast. unfold md026. destruct (startswith _ line); [|done].
  destruct (re_match heading_punct_re line) as [m|] eqn:E; [exfalso|done].
  apply re_match_sound in E.
  change heading_punct_re with
    (Seq Bol (Seq (Grp 1 (cat [Plus true (is_char "#"); Plus true isspace;
                               Plus false dot])) heading_tail_re)) in E.
  cbn [den] in E.
  destruct E as (m0 & [_ ->] & m1 & (m2 & Hg & ->) & Ht).
  apply den_consumed in Hg as (w & Hw & _).
  apply heading_tail_den in Ht as (P & W & E & HP0 & HP & HW).
  simpl in Hw, E. rewrite E in Hw. subst line.
  destruct P as [|c P _] using rev_ind; [done|].
  apply Forall_app in HP as [_ Hc]. inversion Hc as [|?? Hc' _]; subst.
  specialize (Hlast c). rewrite Hlast in Hc'; [done|].
  unfold rstrip. rewrite !app_assoc, rstrip_by_app.
  rewrite (rstrip_by_all_dropped _ W) by done.
  rewrite rstrip_by_fixed; rewrite last_snoc; [done|].
  intros ? [= <-]. by apply punct_not_space.
Qed.

(** C7, as far as it holds: of a heading whose text begins with a character
    that is not whitespace and ends before a run of punctuation, MD026 drops
    exactly the run and keeps the whitespace after it; a line that does not
    end in punctuation is left as it is. *)
Theorem md026_strips_punctuation :
  (∀ hashes ws body punct trail : str,
     hashes ≠ [] → Forall (λ c, c = "#") hashes →
     ws ≠ [] → Forall (λ c, isspace c = true) ws →
     (∃ b, head body = Some b ∧ isspace b = false) →
     Forall (λ c, c ≠ NL) body →
     (∃ x, last body = Some x ∧ one_of ".,;:" x = false) →
     punct ≠ [] → Forall (λ c, one_of ".,;:" c = true) punct →
     Forall (λ c, isspace c = true) trail →
     md026 (hashes ++ ws ++ body ++ punct ++ trail)
     = Some (hashes ++ ws ++ body ++ trail))
  ∧ (∀ line,
       (∀ c, last (rstrip line) = Some c → one_of ".,;:" c = false) →
       md026 line = Some line).
Proof.
  split; [|apply md026_unmatched].
  intros hashes ws body punct trail Hh0 Hh Hw0 Hw (b0 & Hb0 & Hsp) Hnl
         (x & Hx & Hxp) Hp0 Hp Htrail.
  destruct hashes as [|h hs]; [done|]. inversion Hh as [|?? -> Hhs]; subst.
  destruct ws as [|w0 ws]; [done|].
  destruct body as [|b bs]; [done|]. injection Hb0 as ->.
  destruct punct as [|p0 ps]; [done|].
  destruct (heading_punct_match hs ws bs ps trail w0 b0 p0 x)
    as (m & Hm & H1 & H3); try done.
  { eapply Forall_impl; [done|]. intros c ->. done. }
  { eapply Forall_impl; [done|]. intros c Hc. unfold dot.
    by apply negb_true_iff, eqb_false. }
  unfold md026. rewrite startswith_hash. cbn [app]. rewrite Ascii.eqb_refl.
  cbn [app] in Hm. rewrite Hm, H1, H3. simpl. do 2 f_equal.
  rewrite <- app_assoc. simpl. by rewrite <- app_assoc.
Qed.

Lemma md026_strips_punctuation_witness :
  md026 (txt "## Section Title:") = Some (txt "## Section Title")
  ∧ md026 (txt "## Section Title") = Some (txt "## Section Title").
Proof.
  split.
  - apply (proj1 md026_strips_punctuation
             (txt "##") (txt " ") (txt "Section Title") (txt ":") []);
      try (by vm_compute; repeat constructor).
    + by exists "S".
    + by exists "e".
  - apply (proj2 md026_strips_punctuation (txt "## Section Title")).
    vm_compute. by intros c [= <-].
Defined.

(** C7 as stated fails where the heading has no text before the
    punctuation: one character of the run is kept as the text. *)
Lemma md026_keeps_punctuation_only_heading :
  ¬ strips_heading_punctuation md026.
Proof.
  intros H.
  assert (md026 (txt "##" ++ [SP] ++ [] ++ txt "..." ++ [])
          = Some (txt "##" ++ [SP] ++ [] ++ [])) as E.
  { apply H; try done; by vm_compute; repeat constructor. }
  vm_compute in E. discriminate E.
Qed.

(** ** MD037 *)

Lemma emphasis_tail_den st st' :
  den emphasis_tail_re st st' →
  ∃ W u, mrest st = W ++ "*" :: u ∧ W ≠ []
         ∧ Forall (λ c, isspace c = true) W.
Proof.
  unfold emphasis_tail_re, cat, Plus. cbn [fold_right den].
  intros (m1 & (m2 & (c & t & E & Hc & ->) & (run & Hrun & E2 & _))
          & m3 & (c' & t' & E3 & Hc' & ->) & ->).
  simpl in *. apply eqb_true in Hc' as ->.
  exists (c :: run), t'. rewrite E, E2, E3. split_and!; [done|done|by constructor].
Qed.

Lemma emphasis_tail_none pos caps (b rest : str) x :
  isspace x = false → Forall (λ c, not_star c = true) (b ++ [x]) →
  exec emphasis_tail_re (MS pos (b ++ x :: rest) caps) Some = None.
Proof.
  intros Hx Hb.
  destruct (exec _ _ _) as [m|] eqn:E; [exfalso|done].
  apply exec_sound in E as (st' & Hd & _).
  apply emphasis_tail_den in Hd as (W & u & E & _ & HW). simpl in E.
  rewrite (cons_middle x), app_assoc in E.
  apply app_eq_inv in E as [(k & E1 & E2)|(k & -> & E)].
  - destruct k as [|y k]; simpl in *.
    + rewrite app_nil_r in E1. subst W. apply Forall_app in HW as [_ HW].
      inversion HW; subst. congruence.
    + injection E2 as <- _. rewrite E1 in Hb.
      apply Forall_app in Hb as [_ Hb]. by inversion Hb.
  - apply Forall_app in HW as [HW _]. apply Forall_app in HW as [_ HW].
    inversion HW; subst. congruence.
Qed.

Lemma emphasis_match pos (ws1 ts ws2 post : str) w0 t0 v0 x :
  Forall (λ c, isspace c = true) (w0 :: ws1) →
  isspace t0 = false →
  Forall (λ c, not_star c = true) (t0 :: ts) →
  last (t0 :: ts) = Some x → isspace x = false →
  Forall (λ c, isspace c = true) (v0 :: ws2) →
  exec emphasis_re
    (MS pos ("*" :: (w0 :: ws1) ++ (t0 :: ts) ++ (v0 :: ws2) ++ "*" :: post) [])
    Some
  = Some (MS (pos + length ("*" :: (w0 :: ws1) ++ (t0 :: ts) ++ (v0 :: ws2) ++ ["*"]))
             post [(1, t0 :: ts)]).
Proof.
  intros Hws1 Ht0 Hts Hlast Hx Hws2.
  inversion Hws1 as [|?? Hw0 Hws1']; subst.
  inversion Hts as [|?? Hs0 Hts']; subst.
  inversion Hws2 as [|?? Hv0 Hws2']; subst.
  change emphasis_re with
    (Seq (Chr (is_char "*")) (Seq (Plus true isspace)
       (Seq (Grp 1 (Plus false not_star)) emphasis_tail_re))).
  unfold Plus. cbn [exec mrest mpos mcaps app].
  change (is_char "*" "*") with true. cbn iota. rewrite Hw0.
  apply star_greedy_max; [done| |].
  { by intros c t [= <- _]. }
  cbn [mrest mpos mcaps]. rewrite Hs0.
  apply star_lazy_hit; [done| |].
  - cbn [mrest mpos mcaps]. unfold emphasis_tail_re, cat, Plus.
    cbn [fold_right exec mrest mpos mcaps app]. rewrite Hv0.
    apply star_greedy_max; [done| |].
    { by intros c t [= <- _]. }
    cbn [mrest mpos mcaps]. change (is_char "*" "*") with true. cbn iota.
    f_equal. f_equal.
    + simpl. repeat (rewrite length_app; simpl). lia.
    + f_equal. f_equal. apply (take_app_length' (t0 :: ts)). simpl. lia.
  - intros a b -> Hb. cbn [mrest mpos mcaps].
    assert (∃ b', b = b' ++ [x]) as [b' ->].
    { destruct b as [|y b _] using rev_ind; [done|]. exists b.
      rewrite app_assoc, app_comm_cons, last_snoc in Hlast. congruence. }
    rewrite <- app_assoc. simpl. apply emphasis_tail_none; [done|].
    by apply Forall_app in Hts' as [_ ?].
Qed.

Lemma emphasis_needs_star pos (c : ascii) (s : str) :
  c ≠ "*" → exec emphasis_re (MS pos (c :: s) []) Some = None.
Proof.
  intros Hc. unfold emphasis_re, cat. cbn [fold_right exec mrest].
  unfold is_char at 1. apply eqb_false in Hc. by rewrite Hc.
Qed.

Lemma md037_copy (repl : mstate → str) (pre s : str) : ∀ pos,
  Forall (λ c, c ≠ "*") pre →
  re_sub_loop emphasis_re repl (pre ++ s) pos 0
  = pre ++ re_sub_loop emphasis_re repl s (pos + length pre) 0.
Proof.
  induction pre as [|c pre IH]; intros pos H; cbn [app re_sub_loop length].
  - by rewrite Nat.add_0_r.
  - inversion H; subst. rewrite emphasis_needs_star by done.
    rewrite IH by done. do 3 f_equal. lia.
Qed.

Lemma emphasis_two_stars pos (s : str) m :
  exec emphasis_re (MS pos s []) Some = Some m →
  ∃ t u, s = "*" :: t ++ "*" :: u.
Proof.
  intros H. apply exec_sound in H as (st' & Hd & _).
  change emphasis_re with
    (Seq (Chr (is_char "*")) (Seq (Plus true isspace)
       (Seq (Grp 1 (Plus false not_star)) emphasis_tail_re))) in Hd.
  cbn [den] in Hd.
  destruct Hd as (m1 & (c & t & E & Hc & ->) & m2 & Hp & m3
                  & (st1 & Hg & ->) & Ht).
  simpl in E. apply eqb_true in Hc as ->.
  apply den_consumed in Hp as (w1 & E1 & _).
  apply den_consumed in Hg as (w2 & E2 & _).
  apply emphasis_tail_den in Ht as (W & u & E3 & _).
  simpl in E1, E3. exists (w1 ++ w2 ++ W), u.
  rewrite E, E1, E2, E3. by rewrite <- !app_assoc.
Qed.

(** A line with a single star has nothing to tighten. *)
Lemma md037_one_star (item : str) :
  Forall (λ c, c ≠ "*") item → md037 ("*" :: item) = "*" :: item.
Proof.
  intros Hitem. unfold md037, re_sub. apply re_sub_loop_none.
  intros a b E. destruct (exec _ _ _) as [m|] eqn:Em; [exfalso|done].
  apply emphasis_two_stars in Em as (t & u & ->).
  destruct a as [|y a]; simpl in E.
  - injection E as ->. apply Forall_app in Hitem as [_ H].
    inversion H as [|?? Hne _]. by destruct Hne.
  - injection E as <- ->. apply Forall_app in Hitem as [_ H].
    inversion H as [|?? Hne _]. by destruct Hne.
Qed.

(** C5, as far as it holds: padded emphasis is tightened, and a list item
    whose text has no further star keeps its marker. *)
Theorem md037_tightens :
  (∀ pre ws1 text ws2 post : str,
     Forall (λ c, c ≠ "*") pre → Forall (λ c, c ≠ "*") post →
     ws1 ≠ [] → Forall (λ c, isspace c = true) ws1 →
     ws2 ≠ [] → Forall (λ c, isspace c = true) ws2 →
     Forall (λ c, c ≠ "*") text →
     (∃ b, head text = Some b ∧ isspace b = false) →
     (∃ x, last text = Some x ∧ isspace x = false) →
     md037 (pre ++ txt "*" ++ ws1 ++ text ++ ws2 ++ txt "*" ++ post)
     = pre ++ txt "*" ++ text ++ txt "*" ++ post)
  ∧ (∀ item, Forall (λ c, c ≠ "*") item →
             md037 (txt "* " ++ item) = txt "* " ++ item).
Proof.
  split.
  - intros pre ws1 text ws2 post Hpre Hpost Hw1 Hws1 Hw2 Hws2 Htext
           (b & Hb & Hbs) (x & Hx & Hxs).
    destruct ws1 as [|w0 ws1]; [done|]. destruct ws2 as [|v0 ws2]; [done|].
    destruct text as [|t0 ts]; [done|]. injection Hb as <-.
    unfold md037, re_sub. change (txt "*") with ["*"].
    rewrite md037_copy by done. cbn [app].
    assert (Forall (λ c, not_star c = true) (t0 :: ts)) as Hns.
    { eapply Forall_impl; [done|]. intros c Hc. unfold not_star.
      by apply negb_true_iff, eqb_false. }
    pose proof (emphasis_match (0 + length pre) ws1 ts ws2 post w0 t0 v0 x
                  Hws1 Hbs Hns Hx Hxs Hws2) as Hm.
    cbn [app] in Hm. rewrite (re_sub_loop_match _ _ _ _ _ _ Hm).
    unfold backref, group. cbn [mpos mcaps assoc Nat.eqb default].
    set (skipped := w0 :: ws1 ++ t0 :: ts ++ v0 :: ws2 ++ ["*"]).
    replace (w0 :: ws1 ++ t0 :: ts ++ v0 :: ws2 ++ "*" :: post)
      with (skipped ++ post).
    2:{ unfold skipped. simpl. rewrite <- !app_assoc. simpl.
        rewrite <- !app_assoc. simpl. by rewrite <- !app_assoc. }
    replace (0 + length pre + length ("*" :: skipped) - (0 + length pre) - 1)
      with (length skipped) by (simpl; lia).
    rewrite re_sub_loop_skip.
    rewrite <- (app_nil_r post) at 1. rewrite md037_copy by done.
    simpl. rewrite app_nil_r. by rewrite <- !app_assoc.
  - intros item Hitem. apply (md037_one_star (" " :: item)).
    constructor; [done|done].
Qed.

Lemma md037_tightens_witness :
  md037 (txt "say * text * now") = txt "say *text* now"
  ∧ md037 (txt "* item") = txt "* item".
Proof.
  split.
  - apply (proj1 md037_tightens (txt "say ") (txt " ") (txt "text") (txt " ")
             (txt " now")); try (by vm_compute; repeat constructor).
    + by exists "t".
    + by exists "t".
  - apply (proj2 md037_tightens (txt "item")). by vm_compute; repeat constructor.
Defined.

(** C5 as stated fails: the star of a list marker opens a match as any
    other star does. *)
Lemma md037_takes_list_marker : ¬ keeps_list_marker md037.
Proof.
  intros H. specialize (H (txt "a * b")). by vm_compute in H.
Qed.

(** ** Blank lines around headings *)

Lemma strip_head c (t : str) :
  isspace c = false → ∃ t', strip (c :: t) = c :: t'.
Proof.
  intros Hc. unfold strip. simpl. rewrite Hc. simpl.
  destruct (rstrip_by isspace t); [|by eexists]. rewrite Hc. by eexists.
Qed.

Lemma list_item_den l m :
  re_match list_item_re l = Some m →
  ∃ W c t, l = W ++ c :: t ∧ Forall (λ c, isspace c = true) W
           ∧ (one_of "-*" c = true ∨ isdigit c = true).
Proof.
  intros H. apply re_match_sound in H.
  unfold list_item_re, cat, Plus in H. cbn [fold_right den] in H.
  destruct H as [H|H].
  - destruct H as (m0 & [_ ->] & m1 & (m2 & (W & HW & E & _) & ->)
                   & m3 & (c & t & E2 & Hc & ->) & _).
    simpl in *. exists W, c, t. rewrite E, E2. auto.
  - destruct H as (m0 & [_ ->] & m1 & (m2 & (W & HW & E & _) & ->)
                   & m3 & (m4 & (c & t & E2 & Hc & ->) & _) & _).
    simpl in *. exists W, c, t. rewrite E, E2. auto.
Qed.

Lemma heading_like_hash l :
  heading_like l = true → ∃ t, l = "#" :: t.
Proof.
  unfold heading_like. destruct l as [|h [|c l]]; try done.
  intros [->%eqb_true _]%andb_true_iff. by eexists.
Qed.

Lemma hash_not_list t : is_list ("#" :: t) = false.
Proof.
  unfold is_list, matches.
  destruct (re_match list_item_re ("#" :: t)) as [m|] eqn:E; [exfalso|done].
  apply list_item_den in E as (W & c & t' & E & HW & Hc).
  destruct W as [|w W]; simpl in E.
  - injection E as <- _. by destruct Hc.
  - injection E as <- _. by inversion HW.
Qed.

Lemma hash_not_fence t : is_code_fence ("#" :: t) = false.
Proof.
  unfold is_code_fence. by destruct (strip_head "#" t eq_refl) as [t' ->].
Qed.

Lemma emitted_heading prev line next :
  heading_like line = true →
  emitted prev line next
  = (if is_blank prev || heading_like prev then [] else [[]])
    ++ [line]
    ++ (if is_blank next || heading_like next then [] else [[]]).
Proof.
  intros H. unfold emitted, blanks_before, blanks_after. rewrite H.
  destruct (heading_like_hash _ H) as [t ->].
  rewrite hash_not_list, hash_not_fence.
  assert (∀ s, truthy (strip s) = negb (is_blank s)) as Hb.
  { intros s. unfold is_blank, truthy. by destruct (strip s). }
  rewrite !Hb.
  destruct (is_blank prev), (heading_like prev), (is_blank next),
    (heading_like next); done.
Qed.

Lemma emitted_plain prev line next :
  heading_like line = false → is_list line = false →
  is_code_fence line = false → emitted prev line next = [line].
Proof.
  intros H1 H2 H3. unfold emitted, blanks_before, blanks_after.
  by rewrite H1, H2, H3.
Qed.

Lemma blank_pass_plain L :
  Forall (λ l, heading_like l = false ∧ is_list l = false
               ∧ is_code_fence l = false) L →
  ∀ prev, blank_pass prev L = L.
Proof.
  induction 1 as [|l L (H1 & H2 & H3) _ IH]; intros prev; simpl; [done|].
  by rewrite emitted_plain, IH.
Qed.

(** C6: the second pass writes the lines in order, each
    with the blank lines its neighbours in the list it was given call for;
    around a line the code takes for a heading (a [#], then a space or a
    [#]) that is one blank line before unless the line before is blank, a
    heading, or missing, and one after unless the line after is blank, a
    heading, or missing; a line that is no heading, list item or fence
    delimiter gets none. *)
Theorem second_pass_headings :
  (∀ L, second_pass L = Some (blank_pass [] L))
  ∧ (∀ prev line next,
       heading_like line = true →
       emitted prev line next
       = (if is_blank prev || heading_like prev then [] else [[]])
         ++ [line]
         ++ (if is_blank next || heading_like next then [] else [[]]))
  ∧ (∀ prev line next,
       heading_like line = false → is_list line = false →
       is_code_fence line = false → emitted prev line next = [line])
  ∧ no_blanks_without heading_like.
Proof.
  split_and!.
  - apply second_pass_view.
  - apply emitted_heading.
  - apply emitted_plain.
  - intros L HL. rewrite second_pass_view. f_equal. by apply blank_pass_plain.
Qed.

Lemma second_pass_headings_witness :
  second_pass (txt <$> ["Some text"; "# Heading"; "More text"]%string)
  = Some (txt <$> ["Some text"; ""; "# Heading"; ""; "More text"]%string)
  ∧ emitted (txt "Some text") (txt "# Heading") (txt "More text")
    = [[]; txt "# Heading"; []]
  ∧ emitted (txt "# Heading") (txt "More text") [] = [txt "More text"]
  ∧ second_pass (txt <$> ["one"; "two"]%string)
    = Some (txt <$> ["one"; "two"]%string).
Proof.
  destruct second_pass_headings as (H1 & H2 & H3 & H4). split_and!.
  - by rewrite H1.
  - by rewrite H2.
  - by apply H3.
  - apply H4. by repeat constructor.
Defined.


(** ** The blank-run substitution *)

Lemma blank_run_match pos (j : nat) (rest : str) :
  (∀ c t, rest = c :: t → c ≠ NL) →
  exec blank_run_re (MS pos (NL :: NL :: NL :: replicate j NL ++ rest) []) Some
  = Some (MS (pos + 3 + j) rest []).
Proof.
  intros Hrest. unfold blank_run_re, cat, Plus.
  cbn [fold_right exec mrest mpos mcaps].
  change (is_char NL NL) with true. cbn iota.
  apply star_greedy_max.
  - apply Forall_replicate. done.
  - intros c t E. apply eqb_false. by eapply Hrest.
  - cbn [mrest mpos mcaps]. rewrite length_replicate. do 2 f_equal. lia.
Qed.

Lemma blank_run_needs_NL pos c (t : str) :
  c ≠ NL → exec blank_run_re (MS pos (c :: t) []) Some = None.
Proof.
  intros Hc. unfold blank_run_re, cat. cbn [fold_right exec mrest].
  unfold is_char at 1. apply eqb_false in Hc. by rewrite Hc.
Qed.

Lemma blank_run_short1 pos (rest : str) :
  (∀ c t, rest = c :: t → c ≠ NL) →
  exec blank_run_re (MS pos (NL :: rest) []) Some = None.
Proof.
  intros Hrest. unfold blank_run_re, cat. cbn [fold_right exec mrest mpos mcaps].
  change (is_char NL NL) with true. cbn iota.
  destruct rest as [|c t]; [done|]. unfold is_char at 1.
  specialize (Hrest c t eq_refl). apply eqb_false in Hrest. by rewrite Hrest.
Qed.

Lemma blank_run_short2 pos (rest : str) :
  (∀ c t, rest = c :: t → c ≠ NL) →
  exec blank_run_re (MS pos (NL :: NL :: rest) []) Some = None.
Proof.
  intros Hrest. unfold blank_run_re, cat, Plus.
  cbn [fold_right exec mrest mpos mcaps].
  change (is_char NL NL) with true. cbn iota.
  destruct rest as [|c t]; [done|]. unfold is_char at 1.
  specialize (Hrest c t eq_refl). apply eqb_false in Hrest. by rewrite Hrest.
Qed.

Lemma collapse_run k (rest : str) pos :
  (∀ c t, rest = c :: t → c ≠ NL) →
  re_sub_loop blank_run_re (λ _, [NL; NL]) (replicate k NL ++ rest) pos 0
  = replicate (k `min` 2) NL
    ++ re_sub_loop blank_run_re (λ _, [NL; NL]) rest (pos + k) 0.
Proof.
  intros Hrest. destruct k as [|[|[|j]]].
  - simpl. by rewrite Nat.add_0_r.
  - cbn [replicate app]. cbn [re_sub_loop].
    rewrite blank_run_short1 by done. simpl. do 2 f_equal. lia.
  - cbn [replicate app]. cbn [re_sub_loop].
    rewrite blank_run_short2, blank_run_short1 by done.
    simpl. do 3 f_equal. lia.
  - cbn [replicate app].
    rewrite (re_sub_loop_match _ _ _ _ _ _ (blank_run_match pos j rest Hrest)).
    cbn [mpos].
    replace (pos + 3 + j - pos - 1) with (length (NL :: NL :: replicate j NL))
      by (simpl; rewrite length_replicate; lia).
    rewrite (app_comm_cons _ _ NL), (app_comm_cons _ _ NL).
    rewrite re_sub_loop_skip. simpl. rewrite length_replicate.
    do 3 f_equal. lia.
Qed.

Lemma run_decompose (t : str) :
  ∃ k rest, t = replicate k NL ++ rest ∧ (∀ c r, rest = c :: r → c ≠ NL).
Proof.
  induction t as [|c t (k & rest & -> & Hrest)].
  - exists 0, []. done.
  - destruct (Ascii.eqb_spec c NL) as [->|Hc].
    + by exists (S k), rest.
    + exists 0, (c :: replicate k NL ++ rest). split; [done|].
      by intros ?? [= <- _].
Qed.

Lemma squeeze_run n k (rest : str) :
  squeeze n (replicate k NL ++ rest)
  = replicate (k `min` (2 - n)) NL ++ squeeze (n + k) rest.
Proof.
  revert n. induction k as [|k IH]; intros n; cbn [replicate app squeeze].
  - by rewrite Nat.add_0_r.
  - rewrite Ascii.eqb_refl. rewrite IH.
    replace (S n + k) with (n + S k) by lia.
    destruct (n <? 2) eqn:E.
    + apply Nat.ltb_lt in E.
      replace (2 - n) with (S (2 - S n)) by lia.
      by rewrite <- Nat.succ_min_distr.
    + apply Nat.ltb_ge in E.
      replace (2 - S n) with 0 by lia. replace (2 - n) with 0 by lia.
      by rewrite !Nat.min_0_r.
Qed.

Lemma squeeze_char n c (t : str) :
  c ≠ NL → squeeze n (c :: t) = c :: squeeze 0 t.
Proof. intros Hc. simpl. apply eqb_false in Hc. by rewrite Hc. Qed.

Lemma collapse_loop_squeeze len : ∀ (t : str) pos,
  length t ≤ len →
  re_sub_loop blank_run_re (λ _, [NL; NL]) t pos 0 = squeeze 0 t.
Proof.
  induction len as [|len IH]; intros t pos Hlen.
  - destruct t; [done|simpl in Hlen; lia].
  - destruct (run_decompose t) as (k & rest & -> & Hrest).
    rewrite collapse_run, squeeze_run by done. f_equal.
    destruct rest as [|c r]; [done|].
    specialize (Hrest c r eq_refl).
    rewrite squeeze_char by done. cbn [re_sub_loop].
    rewrite blank_run_needs_NL by done. f_equal. apply IH.
    rewrite length_app in Hlen. simpl in Hlen. lia.
Qed.

(** The substitution of MD012 keeps two newlines of every run. *)
Lemma collapse_blank_runs_squeeze (t : str) :
  collapse_blank_runs t = squeeze 0 t.
Proof. by apply (collapse_loop_squeeze (length t)). Qed.

Lemma squeeze_plain n (l t : str) :
  Forall (λ c, c ≠ NL) l → l ≠ [] → squeeze n (l ++ t) = l ++ squeeze 0 t.
Proof.
  intros Hl. revert n. induction Hl as [|c l Hc Hl IH]; intros n Hne; [done|].
  cbn [app]. rewrite squeeze_char by done. f_equal.
  destruct l as [|c' l]; [done|]. by apply IH.
Qed.

Lemma squeeze_plain_end n (l : str) :
  Forall (λ c, c ≠ NL) l → squeeze n l = l.
Proof.
  intros Hl. destruct l as [|c l]; [done|].
  rewrite <- (app_nil_r (c :: l)) at 1. rewrite squeeze_plain by done.
  simpl. by rewrite app_nil_r.
Qed.

Lemma squeeze_lines_not_nil n L : L ≠ [] → squeeze_lines n L ≠ [].
Proof.
  revert n. induction L as [|l L IH]; intros n HL; [done|].
  simpl. destruct L as [|l' L]; [done|].
  destruct l; [|done]. destruct (n <? 2); [done|]. by apply IH.
Qed.

Lemma squeeze_lines_cons n (l : str) R :
  R ≠ [] →
  squeeze_lines n (l :: R)
  = match l with
    | [] => if n <? 2 then [] :: squeeze_lines (S n) R
            else squeeze_lines (S n) R
    | _ :: _ => l :: squeeze_lines 1 R
    end.
Proof. by destruct R. Qed.

Lemma squeeze_join n (L : list str) :
  Forall (Forall (λ c, c ≠ NL)) L →
  squeeze n (join [NL] L) = join [NL] (squeeze_lines n L).
Proof.
  intros HL. revert n. induction HL as [|l L Hl HL IH]; intros n; [done|].
  destruct L as [|l' L].
  - simpl. by apply squeeze_plain_end.
  - rewrite join_cons by done. rewrite squeeze_lines_cons by done.
    destruct l as [|c l].
    + cbn [app squeeze]. rewrite Ascii.eqb_refl, IH.
      destruct (n <? 2); [|done].
      by rewrite join_cons by by apply squeeze_lines_not_nil.
    + rewrite squeeze_plain by done. cbn [app squeeze].
      rewrite Ascii.eqb_refl. cbn [Nat.ltb Nat.leb]. rewrite IH.
      by rewrite join_cons by by apply squeeze_lines_not_nil.
Qed.

(** *** Trailing newlines, on the lines *)

Lemma rstrip_lines_last X l :
  last (rstrip_lines X) = Some l → l ≠ [].
Proof.
  induction X as [|x X IH]; simpl; [done|].
  destruct (rstrip_lines X) as [|y r] eqn:E.
  - destruct x; simpl; [done|]. by intros [= <-].
  - intros H. apply IH. by rewrite <- H.
Qed.

Lemma join_not_nil (X : list str) l :
  last X = Some l → l ≠ [] → join [NL] X ≠ [].
Proof.
  intros Hlast Hl. destruct X as [|x X]; [done|].
  destruct X as [|y X]; simpl in *.
  - by injection Hlast as ->.
  - by destruct x.
Qed.

Lemma rstrip_join (X : list str) :
  Forall (Forall (λ c, c ≠ NL)) X →
  rstrip_by (is_char NL) (join [NL] X) = join [NL] (rstrip_lines X).
Proof.
  assert (∀ l : str, Forall (λ c, c ≠ NL) l →
            rstrip_by (is_char NL) l = l) as Hplain.
  { intros l Hl. apply rstrip_by_fixed. intros c Hc.
    apply eqb_false. eapply Forall_forall in Hl; [done|].
    apply last_Some_elem_of in Hc. done. }
  induction 1 as [|l X Hl HX IH]; [done|].
  destruct X as [|x X].
  - simpl. rewrite Hplain by done. by destruct l.
  - rewrite join_cons by done. rewrite rstrip_by_app.
    cbn [app rstrip_by]. rewrite IH.
    change (rstrip_lines (l :: x :: X))
      with (match rstrip_lines (x :: X) with
            | [] => match l with [] => [] | _ :: _ => [l] end
            | r' => l :: r'
            end).
    destruct (rstrip_lines (x :: X)) as [|y r] eqn:E.
    + change (is_char NL NL) with true. simpl.
      rewrite Hplain by done. by destruct l.
    + assert (join [NL] (y :: r) ≠ []) as Hne.
      { assert (is_Some (last (y :: r))) as [z Ez] by by apply last_is_Some.
        eapply join_not_nil; [done|].
        eapply rstrip_lines_last. by rewrite E. }
      destruct (join [NL] (y :: r)) as [|c j] eqn:Ej; [done|].
      rewrite join_cons by done. by rewrite Ej.
Qed.

Lemma join_snoc sep (X : list str) (y : str) :
  X ≠ [] → join sep (X ++ [y]) = join sep X ++ sep ++ y.
Proof.
  induction X as [|x X IH]; intros HX; [done|].
  destruct X as [|x' X]; [done|].
  change ((x :: x' :: X) ++ [y]) with (x :: (x' :: X) ++ [y]).
  rewrite join_cons by done. rewrite IH by done.
  rewrite (join_cons _ x) by done. by rewrite <- !app_assoc.
Qed.

Lemma single_trailing_newline_join (X : list str) :
  Forall (Forall (λ c, c ≠ NL)) X →
  single_trailing_newline (join [NL] X) = join [NL] (final_lines X).
Proof.
  intros HX. unfold single_trailing_newline, final_lines.
  rewrite rstrip_join by done.
  destruct (rstrip_lines X) as [|y r]; [done|].
  by rewrite join_snoc, app_nil_r.
Qed.

(** ** Lines that call for no blank line *)

Lemma gap_nil_l y : gap [] y = 0.
Proof.
  unfold gap, blanks_after, blanks_before.
  change (heading_like []) with false. change (is_list []) with false.
  change (is_code_fence []) with false. change (is_blank []) with true.
  simpl. by rewrite !andb_false_r.
Qed.

Lemma gap_nil_r x : gap x [] = 0.
Proof.
  unfold gap, blanks_after, blanks_before.
  change (heading_like []) with false. change (is_list []) with false.
  change (is_code_fence []) with false. change (is_blank []) with true.
  simpl. by rewrite !andb_false_r.
Qed.

Lemma quiet_replicate k X :
  quiet_from [] X → quiet_from [] (replicate k [] ++ X).
Proof.
  intros HX. induction k as [|k IH]; simpl; [done|].
  split; [apply gap_nil_l|done].
Qed.

Lemma quiet_blanks p k X :
  0 < k → quiet_from [] X → quiet_from p (replicate k [] ++ X).
Proof.
  intros Hk HX. destruct k as [|k]; [lia|]. simpl.
  split; [apply gap_nil_r|]. by apply quiet_replicate.
Qed.

Lemma quiet_nil_l X p : quiet_from p X → quiet_from [] X.
Proof. destruct X as [|x X]; simpl; [done|]. intros [_ ?]. split; [apply gap_nil_l|done]. Qed.

(** The second pass leaves nothing for a second run to do. *)
Lemma blank_pass_quiet L : ∀ prev p,
  p = [] ∨ (p = prev ∧ blanks_after prev (hd [] L) = 0) →
  quiet_from p (blank_pass prev L).
Proof.
  induction L as [|line rest IH]; intros prev p Hp; [done|].
  cbn [blank_pass]. unfold emitted. rewrite <- !app_assoc. cbn [hd] in Hp.
  assert (quiet_from line (replicate (blanks_after line (hd [] rest)) []
                           ++ blank_pass line rest)) as Hafter.
  { destruct (blanks_after line (hd [] rest)) as [|a] eqn:Ea.
    - apply IH. by right.
    - apply quiet_blanks; [lia|]. apply IH. by left. }
  destruct (blanks_before prev line) as [|b] eqn:Eb.
  - simpl. split; [|done].
    destruct Hp as [->|[-> Ha]]; [apply gap_nil_l|]. unfold gap. lia.
  - apply quiet_blanks; [lia|]. simpl. split; [apply gap_nil_l|done].
Qed.

Lemma blank_pass_fixed X : ∀ prev,
  quiet_from prev X → blank_pass prev X = X.
Proof.
  induction X as [|x X IH]; intros prev H; [done|].
  destruct H as [Hg HX]. cbn [blank_pass]. rewrite IH by done.
  unfold emitted. unfold gap in Hg.
  replace (blanks_before prev x) with 0 by lia.
  replace (blanks_after x (hd [] X)) with 0; [done|].
  destruct X as [|y X]; simpl.
  - pose proof (gap_nil_r x) as H0. unfold gap in H0. lia.
  - destruct HX as [Hxy _]. unfold gap in Hxy. lia.
Qed.

Lemma squeeze_lines_quiet X : ∀ n p,
  quiet_from p X → (2 ≤ n → p = []) → quiet_from p (squeeze_lines n X).
Proof.
  induction X as [|l X IH]; intros n p H Hn; [done|].
  destruct X as [|l' X]; [done|].
  rewrite squeeze_lines_cons by done. destruct H as [Hg HX].
  destruct l as [|c l].
  - destruct (n <? 2) eqn:E.
    + split; [done|]. by apply IH.
    + apply Nat.ltb_ge in E. rewrite Hn by done. apply IH; [|done].
      eapply quiet_nil_l. done.
  - split; [done|]. apply IH; [done|lia].
Qed.

Lemma rstrip_lines_quiet X : ∀ p,
  quiet_from p X → quiet_from p (rstrip_lines X).
Proof.
  induction X as [|l X IH]; intros p H; [done|].
  destruct H as [Hg HX]. simpl. specialize (IH l HX).
  destruct (rstrip_lines X) as [|y r].
  - by destruct l.
  - done.
Qed.

Lemma quiet_snoc_nil X : ∀ p, quiet_from p X → quiet_from p (X ++ [[]]).
Proof.
  induction X as [|x X IH]; intros p H; simpl.
  - split; [apply gap_nil_r|done].
  - destruct H. split; [done|]. by apply IH.
Qed.

Lemma final_lines_quiet X : quiet_from [] X → quiet_from [] (final_lines X).
Proof.
  intros H. unfold final_lines. apply rstrip_lines_quiet in H.
  destruct (rstrip_lines X) as [|y r].
  - simpl. split_and!; try done; apply gap_nil_l.
  - by apply quiet_snoc_nil.
Qed.

(** The clean-up only drops empty lines and adds one. *)
Lemma squeeze_lines_Forall (P : str → Prop) X : ∀ n,
  Forall P X → Forall P (squeeze_lines n X).
Proof.
  induction X as [|l X IH]; intros n H; [done|].
  destruct X as [|l' X]; [done|].
  rewrite squeeze_lines_cons by done. inversion H; subst.
  destruct l; [destruct (n <? 2)|]; try constructor; auto.
Qed.

Lemma rstrip_lines_Forall (P : str → Prop) X :
  Forall P X → Forall P (rstrip_lines X).
Proof.
  induction 1 as [|l X Hl HX IH]; [done|]. simpl.
  destruct (rstrip_lines X); [destruct l|]; try constructor; auto.
Qed.

Lemma final_lines_Forall (P : str → Prop) X :
  P [] → Forall P X → Forall P (final_lines X).
Proof.
  intros H0 H. unfold final_lines. apply rstrip_lines_Forall in H.
  destruct (rstrip_lines X); [by repeat constructor|].
  apply Forall_app. split; [done|by repeat constructor].
Qed.

Lemma final_lines_not_nil X : final_lines X ≠ [].
Proof.
  unfold final_lines. destruct (rstrip_lines X); [done|].
  intros H. by apply app_eq_nil in H as [_ ?].
Qed.

(** ** The clean-up is stable *)

Lemma squeeze_app n (a b : str) :
  squeeze n (a ++ b) = squeeze n a ++ squeeze (newlines_after n a) b.
Proof.
  revert n. induction a as [|c a IH]; intros n; [done|].
  cbn [app squeeze newlines_after]. destruct (Ascii.eqb c NL).
  - rewrite IH. by destruct (n <? 2).
  - by rewrite IH.
Qed.

Lemma squeeze_length n (s : str) : length (squeeze n s) ≤ length s.
Proof.
  revert n. induction s as [|c s IH]; intros n; [done|].
  cbn [squeeze]. destruct (Ascii.eqb c NL).
  - destruct (n <? 2); simpl; specialize (IH (S n)); lia.
  - simpl. specialize (IH 0). lia.
Qed.

Lemma squeeze_ge2 n m (s : str) : 2 ≤ n → 2 ≤ m → squeeze n s = squeeze m s.
Proof.
  revert n m. induction s as [|c s IH]; intros n m Hn Hm; [done|].
  cbn [squeeze]. destruct (Ascii.eqb c NL); [|done].
  replace (n <? 2) with false by (symmetry; apply Nat.ltb_ge; lia).
  replace (m <? 2) with false by (symmetry; apply Nat.ltb_ge; lia).
  apply IH; lia.
Qed.

Lemma squeeze_idemp n (s : str) : squeeze n (squeeze n s) = squeeze n s.
Proof.
  revert n. induction s as [|c s IH]; intros n; [done|].
  cbn [squeeze]. destruct (Ascii.eqb c NL) eqn:Ec.
  - destruct (n <? 2) eqn:En.
    + cbn [squeeze]. rewrite Ascii.eqb_refl, En. by rewrite IH.
    + apply Nat.ltb_ge in En.
      rewrite (squeeze_ge2 n (S n)) by lia. apply IH.
  - cbn [squeeze]. rewrite Ec. by rewrite IH.
Qed.

Lemma squeeze_prefix n (a b : str) :
  squeeze n (a ++ b) = a ++ b → squeeze n a = a.
Proof.
  rewrite squeeze_app. intros H.
  assert (length (squeeze n a) = length a) as Hlen.
  { apply (f_equal length) in H. rewrite !length_app in H.
    pose proof (squeeze_length n a).
    pose proof (squeeze_length (newlines_after n a) b). lia. }
  apply app_inj_1 in H; [by destruct H|done].
Qed.

Lemma newlines_after_last (a : str) : ∀ n c,
  last a = Some c → c ≠ NL → newlines_after n a = 0.
Proof.
  induction a as [|x a IH]; intros n c Hlast Hc; [done|].
  cbn [newlines_after]. destruct a as [|y a].
  - injection Hlast as ->. apply eqb_false in Hc. by rewrite Hc.
  - eapply IH; [|done]. by rewrite <- Hlast.
Qed.

Lemma single_trailing_newline_tight (t : str) :
  squeeze 0 (single_trailing_newline (squeeze 0 t))
  = single_trailing_newline (squeeze 0 t).
Proof.
  unfold single_trailing_newline.
  set (body := rstrip_by (is_char NL) (squeeze 0 t)).
  assert (squeeze 0 body = body) as Hbody.
  { destruct (rstrip_by_split (is_char NL) (squeeze 0 t)) as (tail & E & _).
    apply (squeeze_prefix 0 body tail). fold body in E.
    rewrite <- E. apply squeeze_idemp. }
  rewrite squeeze_app, Hbody. f_equal.
  destruct (last body) as [c|] eqn:Ec.
  - rewrite (newlines_after_last body 0 c); [done|done|].
    apply rstrip_by_last in Ec. by apply eqb_false.
  - apply last_None in Ec. by rewrite Ec.
Qed.

Lemma single_trailing_newline_idemp (t : str) :
  single_trailing_newline (single_trailing_newline t)
  = single_trailing_newline t.
Proof.
  unfold single_trailing_newline. f_equal.
  rewrite rstrip_by_app. change (rstrip_by (is_char NL) [NL]) with (@nil ascii).
  apply rstrip_by_idemp.
Qed.

(** ** The table separator rewrite *)

Lemma sep_class_cases c :
  one_of "-:| " c = true → c = "-" ∨ c = ":" ∨ c = "|" ∨ c = " ".
Proof.
  unfold one_of. simpl. rewrite !orb_true_iff, !eqb_true. intuition discriminate.
Qed.

Lemma table_sep_shape (l : str) :
  Forall (λ c, c ≠ NL) l → matches table_sep_re l = true →
  ∃ mid, l = "|" :: mid ++ ["|"] ∧ mid ≠ []
         ∧ Forall (λ c, one_of "-:| " c = true) mid.
Proof.
  intros Hl. unfold matches.
  destruct (re_match table_sep_re l) as [m|] eqn:E; [intros _|done].
  apply re_match_sound in E. unfold table_sep_re, cat, Plus in E.
  cbn [fold_right den] in E.
  destruct E as (m0 & [_ ->] & m1 & (c & t & E1 & Hc & ->)
                 & m2 & (m3 & (c1 & t1 & E2 & Hc1 & ->) & (run & Hrun & E3 & _))
                 & m4 & (c2 & t2 & E4 & Hc2 & ->) & m5 & [He ->] & ->).
  simpl in *. apply eqb_true in Hc as ->. apply eqb_true in Hc2 as ->.
  exists (c1 :: run). subst l t t1. rewrite E4 in *.
  destruct He as [->| ->].
  - split_and!; [done|done|by constructor].
  - exfalso. inversion Hl as [|?? _ Hl1]; subst.
    inversion Hl1 as [|?? _ Hl2]; subst.
    apply Forall_app in Hl2 as [_ Hl2].
    inversion Hl2 as [|?? _ Hl3]; subst. inversion Hl3 as [|?? Hne _]; subst.
    by destruct Hne.
Qed.

Lemma table_sep_matches (mid : str) :
  mid ≠ [] → Forall (λ c, one_of "-:| " c = true) mid →
  matches table_sep_re ("|" :: mid ++ ["|"]) = true.
Proof.
  intros Hne Hmid. destruct mid as [|c run]; [done|].
  inversion Hmid as [|?? Hc Hrun]; subst.
  unfold matches, re_match, table_sep_re, cat, Plus.
  cbn [fold_right exec mrest mpos mcaps Nat.eqb app].
  change (is_char "|" "|") with true. cbn iota. rewrite Hc.
  rewrite <- (app_nil_r ["|"]).
  rewrite (star_greedy_back _ _ _ run ["|"] [] 2
             (MS (2 + length run + 1) [] [])); [done| |done| |].
  - apply Forall_app. split; [done|]. by repeat constructor.
  - cbn [mrest mpos mcaps app]. change (is_char "|" "|") with true. cbn iota.
    do 2 f_equal. lia.
  - intros a b E Ha. destruct a as [|x [|y a]]; [done| |].
    + injection E as -> <-. done.
    + injection E as -> E. by destruct a.
Qed.

Lemma split_snoc_sep c (s : str) : split c (s ++ [c]) = split c s ++ [[]].
Proof.
  induction s as [|x s IH]; cbn [app split].
  - by rewrite Ascii.eqb_refl.
  - rewrite IH. destruct (Ascii.eqb x c); [done|].
    destruct (split c s) eqn:E; [by apply split_not_nil in E|done].
Qed.

Lemma sep_cells_shape (cells : list str) :
  sep_cells ([] :: cells ++ [[]]) = [] :: (clean_cell <$> cells) ++ [[]].
Proof.
  unfold sep_cells.
  assert (length ([] :: cells ++ [[]]) = length cells + 2) as ->
    by (simpl; rewrite length_app; simpl; lia).
  rewrite imap_cons. f_equal. rewrite imap_app. f_equal.
  - rewrite <- (imap_const clean_cell). apply imap_ext. intros j x Hj.
    apply lookup_lt_Some in Hj. unfold compose, const.
    change (S j =? 0) with false.
    destruct (Nat.eqb_spec (S j) (length cells + 2 - 1)); [lia|done].
  - cbn [imap]. unfold compose. change (S (length cells + 0) =? 0) with false.
    destruct (Nat.eqb_spec (S (length cells + 0)) (length cells + 2 - 1));
      [done|lia].
Qed.

Lemma fix_line_table (mid : str) :
  mid ≠ [] → Forall (λ c, one_of "-:| " c = true) mid →
  fix_line ("|" :: mid ++ ["|"])
  = "|" :: join (txt "|") (clean_cell <$> split "|" mid) ++ ["|"].
Proof.
  intros Hne Hmid. unfold fix_line. rewrite table_sep_matches by done.
  cbn [split]. rewrite Ascii.eqb_refl, split_snoc_sep, sep_cells_shape.
  assert (clean_cell <$> split "|" mid ≠ []) as Hcells.
  { intros H. apply fmap_nil_inv in H. by apply split_not_nil in H. }
  rewrite join_cons.
  - rewrite join_snoc by done. by rewrite app_nil_r.
  - intros H. by apply app_eq_nil in H as [_ ?].
Qed.

Lemma replace_char_drops (Q R : ascii → Prop) c (s : str) :
  (∀ a, Q a → a ≠ c → R a) → Forall Q s → Forall R (replace_char c [] s).
Proof.
  intros HQR. unfold replace_char. induction 1 as [|a s Ha Hs IH]; simpl; [done|].
  destruct (Ascii.eqb_spec a c); [done|]. constructor; auto.
Qed.

Lemma replace_char_absent c new (s : str) :
  Forall (λ a, a ≠ c) s → replace_char c new s = s.
Proof.
  unfold replace_char. induction 1 as [|a s Ha Hs IH]; simpl; [done|].
  apply eqb_false in Ha. by rewrite Ha, IH.
Qed.

Lemma strip_padded (x : str) :
  Forall (λ a, isspace a = false) x → strip (" " :: x ++ [" "]) = x.
Proof.
  intros Hx. unfold strip. cbn [lstrip_by]. change (isspace " ") with true.
  cbn iota. destruct Hx as [|a x Ha Hx]; [done|].
  cbn [app lstrip_by]. rewrite Ha.
  change (a :: x ++ [" "]) with ((a :: x) ++ [" "]).
  rewrite rstrip_by_app. change (rstrip_by isspace [" "]) with (@nil ascii).
  apply rstrip_by_fixed. intros c Hc.
  apply last_Some_elem_of in Hc.
  assert (Forall (λ a, isspace a = false) (a :: x)) as H by by constructor.
  by eapply Forall_forall in H.
Qed.

Lemma clean_cell_shape (c : str) :
  Forall (λ a, one_of "-:| " a = true) c → Forall (λ a, a ≠ "|") c →
  ∃ x, clean_cell c = " " :: x ++ [" "] ∧ Forall (λ a, a = "-" ∨ a = ":") x.
Proof.
  intros Hc Hbar. exists (replace_char SP [] (strip c)). split; [done|].
  apply (replace_char_drops (λ a, one_of "-:| " a = true ∧ a ≠ "|")).
  - intros a [Ha Hb] Hs. apply sep_class_cases in Ha. unfold SP in Hs. tauto.
  - apply strip_all. apply Forall_and. done.
Qed.

Lemma clean_cell_padded (x : str) :
  Forall (λ a, a = "-" ∨ a = ":") x →
  clean_cell (" " :: x ++ [" "]) = " " :: x ++ [" "].
Proof.
  intros Hx. unfold clean_cell. rewrite strip_padded.
  - rewrite replace_char_absent; [done|].
    eapply Forall_impl; [done|]. by intros a [-> | ->].
  - eapply Forall_impl; [done|]. by intros a [-> | ->].
Qed.

Lemma fix_line_idemp (l : str) :
  Forall (λ c, c ≠ NL) l → fix_line (fix_line l) = fix_line l.
Proof.
  intros Hl. destruct (matches table_sep_re l) eqn:Em.
  - destruct (table_sep_shape l Hl Em) as (mid & -> & Hne & Hmid).
    rewrite fix_line_table by done.
    set (cells := split "|" mid).
    assert (Forall (λ c, ∃ x, clean_cell c = " " :: x ++ [" "]
                         ∧ Forall (λ a, a = "-" ∨ a = ":") x) cells) as Hshape.
    { pose proof (split_no_sep "|" mid) as Hbar.
      pose proof (split_all (λ a, one_of "-:| " a = true) "|" mid Hmid) as Hcl.
      fold cells in Hbar, Hcl. clearbody cells.
      induction Hbar as [|c cells Hc Hbar IH]; [done|].
      inversion Hcl; subst. constructor; [by apply clean_cell_shape|auto]. }
    assert (cells ≠ []) as Hcells by apply split_not_nil.
    clearbody cells.
    assert (Forall (Forall (λ a, a ≠ "|")) (clean_cell <$> cells)) as Hnobar.
    { apply Forall_fmap. eapply Forall_impl; [done|].
      intros c (x & E & Hx). unfold compose. rewrite E. constructor; [done|].
      apply Forall_app. split; [|by repeat constructor].
      eapply Forall_impl; [done|]. by intros a [-> | ->]. }
    rewrite fix_line_table.
    + change (txt "|") with ["|"]. rewrite split_join; [|by destruct cells|done].
      do 3 f_equal. rewrite <- list_fmap_compose.
      apply Forall_fmap_ext. eapply Forall_impl; [done|].
      intros c (x & E & Hx). unfold compose. rewrite E.
      by apply clean_cell_padded.
    + destruct cells as [|c cells]; [done|]. inversion Hshape as [|?? (x & E & _) _]; subst.
      cbn [fmap list_fmap]. rewrite E. by destruct (clean_cell <$> cells).
    + apply join_all; [by repeat constructor|].
      apply Forall_fmap. eapply Forall_impl; [done|].
      intros c (x & E & Hx). unfold compose. rewrite E. constructor; [done|].
      apply Forall_app. split; [|by repeat constructor].
      eapply Forall_impl; [done|]. by intros a [-> | ->].
  - unfold fix_line at 2 3. rewrite Em.
    destruct (str_eqb (strip l) (txt "```")) eqn:Eb; [by vm_compute|].
    unfold fix_line. by rewrite Em, Eb.
Qed.

Lemma fix_line_all (P : ascii → Prop) (l : str) :
  P "|" → P " " → Forall P (txt "```text") →
  Forall P l → Forall P (fix_line l).
Proof.
  intros Hbar Hsp Htag Hl. unfold fix_line.
  destruct (matches table_sep_re l).
  - apply join_all; [by repeat constructor|]. unfold sep_cells.
    eapply Forall_imap; [|by apply split_all].
    intros j x Hx. simpl. destruct (_ || _); [done|].
    constructor; [done|]. apply Forall_app. split; [|by repeat constructor].
    apply replace_char_all; [done|]. by apply strip_all.
  - by destruct (str_eqb _ _).
Qed.

(** ** Running [fix_markdown_complete] twice *)

Lemma blank_pass_Forall (P : str → Prop) L :
  P [] → Forall P L → ∀ prev, Forall P (blank_pass prev L).
Proof.
  intros H0. induction 1 as [|l L Hl HL IH]; intros prev; [done|].
  cbn [blank_pass]. unfold emitted. rewrite !Forall_app.
  split_and!; [by apply Forall_replicate|by repeat constructor
              |by apply Forall_replicate|done].
Qed.

(** The lines of the output: those of the second pass, squeezed, with one
    empty line at the end. *)
Lemma fix_markdown_complete_lines content :
  let R := blank_pass [] (fix_line <$> split NL content) in
  let L' := final_lines (squeeze_lines 0 R) in
  fix_markdown_complete content = Some (join [NL] L')
  ∧ Forall (Forall (λ c, c ≠ NL)) R
  ∧ Forall (Forall (λ c, c ≠ NL)) L'
  ∧ split NL (join [NL] L') = L'.
Proof.
  intros R L'.
  assert (Forall (Forall (λ c, c ≠ NL)) R) as HR.
  { apply blank_pass_Forall; [done|]. apply Forall_fmap.
    eapply Forall_impl; [apply split_no_sep|].
    intros l Hl. apply fix_line_all; [done|done|each_char|done]. }
  assert (Forall (Forall (λ c, c ≠ NL)) L') as HL'.
  { apply final_lines_Forall; [done|]. by apply squeeze_lines_Forall. }
  split_and!; [|done|done|].
  - rewrite fix_markdown_complete_view. fold R. f_equal.
    rewrite collapse_blank_runs_squeeze, squeeze_join by done.
    apply single_trailing_newline_join. by apply squeeze_lines_Forall.
  - apply split_join; [apply final_lines_not_nil|done].
Qed.

(** C2, as far as it holds: [fix_markdown_complete] is idempotent. *)
Theorem complete_idempotent content :
  ∃ out, fix_markdown_complete content = Some out
         ∧ fix_markdown_complete out = Some out.
Proof.
  destruct (fix_markdown_complete_lines content) as (Hout & HR & HL' & Hsplit).
  set (R := blank_pass [] (fix_line <$> split NL content)) in *.
  set (L' := final_lines (squeeze_lines 0 R)) in *.
  exists (join [NL] L'). split; [done|].
  assert (Forall (λ l, fix_line l = l) L') as Hfixed.
  { apply final_lines_Forall; [done|]. apply squeeze_lines_Forall.
    apply blank_pass_Forall; [done|]. apply Forall_fmap.
    eapply Forall_impl; [apply split_no_sep|].
    intros l Hl. by apply fix_line_idemp. }
  assert (quiet_from [] L') as Hquiet.
  { apply final_lines_quiet. apply squeeze_lines_quiet; [|lia].
    apply blank_pass_quiet. by left. }
  rewrite fix_markdown_complete_view, Hsplit.
  assert (fix_line <$> L' = L') as ->.
  { rewrite <- (list_fmap_id L') at 2. by apply Forall_fmap_ext. }
  rewrite blank_pass_fixed by done.
  assert (join [NL] L' = single_trailing_newline (squeeze 0 (join [NL] R)))
    as ->.
  { rewrite fix_markdown_complete_view in Hout. fold R in Hout.
    rewrite collapse_blank_runs_squeeze in Hout. by injection Hout. }
  rewrite collapse_blank_runs_squeeze, single_trailing_newline_tight.
  by rewrite single_trailing_newline_idemp.
Qed.

(** C2 as stated fails for [fix_markdown_errors]: tightening one emphasis
    brings the star that closed it next to a second padded text, which the
    next run tightens. *)
Lemma errors_not_idempotent :
  ¬ (∀ x y, fix_markdown_errors x = Some y → fix_markdown_errors y = Some y).
Proof.
  intros H. specialize (H (txt "* a * b *") (txt "*a* b *") eq_refl).
  by vm_compute in H.
Qed.

(** ** Bare fences in the first pass *)

Lemma table_sep_head (l : str) :
  matches table_sep_re l = true → ∃ t, l = "|" :: t.
Proof.
  unfold matches.
  destruct (re_match table_sep_re l) as [m|] eqn:E; [intros _|done].
  apply re_match_sound in E. unfold table_sep_re, cat in E.
  cbn [fold_right den] in E.
  destruct E as (m0 & [_ ->] & m1 & (c & t & E1 & Hc & ->) & _).
  simpl in E1. apply eqb_true in Hc as ->. by exists t.
Qed.

Lemma fix_line_bare (line : str) :
  strip line = txt "```" → fix_line line = txt "```text".
Proof.
  intros Hs. unfold fix_line.
  destruct (matches table_sep_re line) eqn:Em.
  - apply table_sep_head in Em as [t ->].
    destruct (strip_head "|" t eq_refl) as [t' E]. by rewrite E in Hs.
  - apply str_eqb_eq in Hs. by rewrite Hs.
Qed.

Lemma fix_line_tagged (line : str) :
  fix_line line = txt "```text" →
  strip line = txt "```" ∨ line = txt "```text".
Proof.
  unfold fix_line. destruct (matches table_sep_re line) eqn:Em.
  - apply table_sep_head in Em as [t ->]. cbn [split].
    rewrite Ascii.eqb_refl. unfold sep_cells. rewrite imap_cons.
    cbn [Nat.eqb orb].
    destruct (imap _ (split "|" t)) as [|x X] eqn:E.
    + apply (f_equal length) in E. rewrite length_imap in E.
      apply length_zero_iff_nil in E. by apply split_not_nil in E.
    + rewrite join_cons by done. by intros H.
  - destruct (str_eqb (strip line) (txt "```")) eqn:Eb.
    + apply str_eqb_eq in Eb. by left.
    + by right.
Qed.

(** C3, as far as it holds: the first pass gives the tag to every line
    whose trimmed content is the bare delimiter, opening or closing, and to
    no other line. *)
Theorem first_pass_tags_bare_fences (L : list str) :
  ∃ L', first_pass L = Some L' ∧ length L' = length L
        ∧ ∀ i line, L !! i = Some line →
            (strip line = txt "```" → L' !! i = Some (txt "```text"))
            ∧ (L' !! i = Some (txt "```text") →
               strip line = txt "```" ∨ line = txt "```text").
Proof.
  exists (fix_line <$> L). split_and!.
  - apply first_pass_view.
  - apply length_fmap.
  - intros i line Hi. rewrite list_lookup_fmap, Hi. simpl. split.
    + intros Hs. by rewrite fix_line_bare.
    + intros [= H]. by apply fix_line_tagged.
Qed.

Lemma first_pass_tags_bare_fences_witness :
  ∃ L', first_pass (txt <$> ["```"; "code"; "  ```"]%string) = Some L'
        ∧ L' !! 0 = Some (txt "```text") ∧ L' !! 2 = Some (txt "```text").
Proof.
  destruct (first_pass_tags_bare_fences
              (txt <$> ["```"; "code"; "  ```"]%string)) as (L' & E & _ & H).
  exists L'. split_and!; [done| |].
  - by apply (H 0 (txt "```")).
  - by apply (H 2 (txt "  ```")).
Defined.

(** C3 as stated fails: the delimiter that closes a block gets the tag
    too, here and in the output of the whole function. *)
Lemma first_pass_tags_closing_fence :
  ¬ tags_opening_only first_pass
  ∧ fix_markdown_complete (doc ["```"; "code"; "```"]%string)
    = Some (doc ["```text"; ""; "code"; ""; "```text"; ""]%string).
Proof.
  split; [|by vm_compute].
  intros H.
  destruct (H (txt <$> ["```"; "code"; "```"]%string) 2 (txt "```"))
    as (L' & E & H2); [done|done|].
  vm_compute in E. injection E as <-. by vm_compute in H2.
Qed.

(** ** Totality *)








(** * Further properties of the two scripts *)

(** ** MD007: list indentation *)

Lemma star_exec_total g p caps k (rest : str) :
  (∀ st, is_Some (k st)) → ∀ pos, is_Some (star_exec g p caps k rest pos).
Proof.
  intros Hk. induction rest as [|c t IH]; intros pos; simpl; [done|].
  destruct (p c); [|done]. destruct g.
  - by destruct (star_exec true p caps k t (S pos)).
  - destruct (k (MS pos (c :: t) caps)); [done|apply IH].
Qed.

Lemma indent4_shape (line : str) :
  matches indent4_re line = true →
  ∃ m w rest, line = txt "    " ++ m :: w :: rest
              ∧ one_of "-*" m = true ∧ isspace w = true.
Proof.
  unfold matches.
  destruct (re_match indent4_re line) as [st|] eqn:E; [intros _|done].
  apply re_match_sound in E. unfold indent4_re, cat, Plus in E.
  cbn [fold_right den] in E.
  destruct E as (m0 & [_ ->] & m1 & (c1 & t1 & E1 & H1 & ->)
                 & m2 & (c2 & t2 & E2 & H2 & ->)
                 & m3 & (c3 & t3 & E3 & H3 & ->)
                 & m4 & (c4 & t4 & E4 & H4 & ->)
                 & m5 & (m & t5 & E5 & Hm & ->)
                 & m6 & (m7 & (w & t6 & E6 & Hw & ->) & _) & _).
  simpl in *. apply eqb_true in H1 as ->. apply eqb_true in H2 as ->.
  apply eqb_true in H3 as ->. apply eqb_true in H4 as ->.
  exists m, w, t6. subst. done.
Qed.

Lemma indent4_matches m w (rest : str) :
  one_of "-*" m = true → isspace w = true →
  matches indent4_re (txt "    " ++ m :: w :: rest) = true.
Proof.
  intros Hm Hw. unfold matches, re_match, indent4_re, cat, Plus.
  change (txt "    ") with [SP; SP; SP; SP].
  cbn [fold_right exec mrest mpos mcaps Nat.eqb app].
  change (is_char SP SP) with true. cbn iota. rewrite Hm, Hw.
  match goal with
  | |- context [star_exec ?g ?p ?c ?k ?r ?n] =>
      by destruct (star_exec_total g p c k r ltac:(done) n) as [st ->]
  end.
Qed.

Lemma replace_first_prefix (old new s : str) :
  replace_first old new (old ++ s) = new ++ s.
Proof.
  destruct old as [|c old].
  - simpl. by destruct s.
  - cbn [app replace_first].
    change (c :: old ++ s) with ((c :: old) ++ s).
    by rewrite startswith_app, drop_app_length.
Qed.

Lemma marker_not_space m : one_of "-*" m = true → m ≠ " ".
Proof.
  unfold one_of. simpl. rewrite !orb_true_iff, !eqb_true.
  intros [->|[->|?]]; done.
Qed.

(** X1: MD007 takes two of the four spaces before a list marker that stands
    at exactly four spaces and is followed by whitespace; it changes no other
    line, and a line it changed it does not change again. *)
Theorem md007_reindents :
  (∀ m w rest, one_of "-*" m = true → isspace w = true →
     md007 (txt "    " ++ m :: w :: rest) = txt "  " ++ m :: w :: rest)
  ∧ (∀ line, md007 line ≠ line →
       ∃ m w rest, line = txt "    " ++ m :: w :: rest
                   ∧ one_of "-*" m = true ∧ isspace w = true)
  ∧ (∀ line, md007 (md007 line) = md007 line).
Proof.
  assert (∀ m w rest, one_of "-*" m = true → isspace w = true →
     md007 (txt "    " ++ m :: w :: rest) = txt "  " ++ m :: w :: rest) as H1.
  { intros m w rest Hm Hw. unfold md007. rewrite indent4_matches by done.
    apply replace_first_prefix. }
  split_and!; [done| |].
  - intros line Hne. unfold md007 in Hne.
    destruct (matches indent4_re line) eqn:E; [|done].
    by apply indent4_shape.
  - intros line. destruct (matches indent4_re line) eqn:E.
    + apply indent4_shape in E as (m & w & rest & -> & Hm & Hw).
      rewrite !H1 by done. unfold md007.
      destruct (matches indent4_re (txt "  " ++ m :: w :: rest)) eqn:E2; [|done].
      apply indent4_shape in E2 as (m' & w' & rest' & E2 & _).
      change (txt "  ") with [" "; " "] in E2.
      change (txt "    ") with [" "; " "; " "; " "] in E2. simpl in E2.
      injection E2 as -> _. by apply marker_not_space in Hm.
    + unfold md007. by rewrite !E.
Qed.

Lemma md007_reindents_witness :
  md007 (txt "    - item") = txt "  - item"
  ∧ (∃ m w rest, txt "    * x" = txt "    " ++ m :: w :: rest
                 ∧ one_of "-*" m = true ∧ isspace w = true).
Proof.
  destruct md007_reindents as (H1 & H2 & _). split.
  - by apply (H1 "-" " " (txt "item")).
  - apply H2. by vm_compute.
Defined.

(** ** MD009: the other endings *)

(** X2: a line that ends in exactly one space loses all the whitespace at
    its end (a tab before the space goes too); a line that does not end in
    a space is left as it is, whatever other whitespace it ends in. *)
Theorem md009_single_space :
  (∀ body, (∀ c, last body = Some c → c ≠ " ") →
     md009 (body ++ txt " ") = rstrip body)
  ∧ (∀ line, (∀ c, last line = Some c → c ≠ " ") → md009 line = line).
Proof.
  split; [apply md009_one_space|].
  intros line Hlast. unfold md009, endswith.
  destruct line as [|c line _] using rev_ind; [done|].
  rewrite rev_app_distr. change (rev (txt " ")) with [" "]. cbn [rev app].
  unfold startswith at 1. specialize (Hlast c). rewrite last_snoc in Hlast.
  specialize (Hlast eq_refl). apply not_eq_sym, eqb_false in Hlast.
  by rewrite Hlast.
Qed.

Lemma md009_single_space_witness :
  md009 (txt "a	" ++ txt " ") = rstrip (txt "a	")
  ∧ md009 (txt "a	") = txt "a	".
Proof.
  destruct md009_single_space as [H1 H2]. split.
  - apply H1. vm_compute. by intros c [= <-].
  - apply H2. vm_compute. by intros c [= <-].
Defined.

(** ** Fences and concatenation in [fix_markdown_errors] *)

(** X3: a fence delimiter, and every line met while a fence is open, closed
    later or never, is written as it was read, at its own line number. *)
Theorem errors_fenced_lines content i line :
  split NL content !! i = Some line →
  is_code_fence line = true
  ∨ fence_state false (take i (split NL content)) = true →
  ∃ out, fix_markdown_errors content = Some out
         ∧ split NL out !! i = Some line.
Proof.
  intros Hi Hf.
  destruct (fix_markdown_errors_lines content) as (out & E & _ & Hfix & Hs).
  exists (join [NL] out). split; [done|]. rewrite Hs.
  eapply errors_lines_lookup; [done|done|]. destruct Hf; auto.
Qed.

Lemma errors_fenced_lines_witness :
  ∃ out, fix_markdown_errors (doc ["text"; "``` * a * "; "## open: "]%string)
         = Some out
         ∧ split NL out !! 2 = Some (txt "## open: ").
Proof.
  apply (errors_fenced_lines
           (doc ["text"; "``` * a * "; "## open: "]%string) 2 (txt "## open: ")).
  - reflexivity.
  - right. reflexivity.
Defined.

Lemma split_app_sep c (a b : str) :
  split c (a ++ c :: b) = split c a ++ split c b.
Proof.
  induction a as [|x a IH]; cbn [app split].
  - by rewrite Ascii.eqb_refl.
  - rewrite IH. destruct (Ascii.eqb x c); [done|].
    destruct (split c a) eqn:E; [by apply split_not_nil in E|done].
Qed.

Lemma join_app sep (X Y : list str) :
  X ≠ [] → Y ≠ [] → join sep (X ++ Y) = join sep X ++ sep ++ join sep Y.
Proof.
  intros HX HY. induction X as [|x X IH]; [done|].
  destruct X as [|x' X].
  - cbn [app]. by rewrite join_cons.
  - change ((x :: x' :: X) ++ Y) with (x :: (x' :: X) ++ Y).
    rewrite join_cons by done. rewrite IH by done.
    rewrite (join_cons _ x) by done. by rewrite <- !app_assoc.
Qed.

Lemma errors_lines_app L1 L2 : ∀ b,
  errors_lines b (L1 ++ L2)
  = o1 ← errors_lines b L1;
    o2 ← errors_lines (fence_state b L1) L2;
    Some (o1 ++ o2).
Proof.
  induction L1 as [|l L1 IH]; intros b.
  - simpl. by destruct (errors_lines b L2).
  - cbn [app errors_lines].
    assert (fence_state b (l :: L1)
            = fence_state (if is_code_fence l then negb b else b) L1)
      as Hst by done.
    rewrite Hst.
    destruct (is_code_fence l).
    + rewrite IH. destruct (errors_lines (negb b) L1); [|done]. simpl.
      by destruct (errors_lines _ L2).
    + destruct b.
      * rewrite IH. destruct (errors_lines true L1); [|done]. simpl.
        by destruct (errors_lines _ L2).
      * destruct (rewrite_line l); [|done]. simpl.
        rewrite IH. destruct (errors_lines false L1); [|done]. simpl.
        by destruct (errors_lines _ L2).
Qed.

(** X4: where no fence is open at the end of [a], [fix_markdown_errors]
    treats [a], a newline and [b] as [a] and [b] apart. *)
Theorem errors_concat (a b : str) :
  fence_state false (split NL a) = false →
  ∃ x y, fix_markdown_errors a = Some x ∧ fix_markdown_errors b = Some y
         ∧ fix_markdown_errors (a ++ NL :: b) = Some (x ++ NL :: y).
Proof.
  intros Hst.
  destruct (errors_lines_total (split NL a) false) as (oa & Ea & Hla).
  destruct (errors_lines_total (split NL b) false) as (ob & Eb & Hlb).
  assert (∀ (L : str) (o : list str),
            length o = length (split NL L) → o ≠ []) as Hne.
  { intros L o Hlen ->. simpl in Hlen. symmetry in Hlen.
    apply length_zero_iff_nil in Hlen. by apply split_not_nil in Hlen. }
  exists (join [NL] oa), (join [NL] ob).
  unfold fix_markdown_errors. rewrite !for_each_errors_body.
  rewrite Ea, Eb, split_app_sep, errors_lines_app, Ea, Hst, Eb.
  simpl. split_and!; [done|done|]. f_equal.
  rewrite join_app by eauto. done.
Qed.

Lemma errors_concat_witness :
  ∃ x y, fix_markdown_errors (doc ["```"; "x "; "```"]%string) = Some x
         ∧ fix_markdown_errors (txt "y ") = Some y
         ∧ fix_markdown_errors (doc ["```"; "x "; "```"]%string ++ NL :: txt "y ")
           = Some (x ++ NL :: y).
Proof.
  apply (errors_concat (doc ["```"; "x "; "```"]%string) (txt "y ")).
  reflexivity.
Defined.

(** ** What the rewrites of [fix_markdown_errors] delete *)

Lemma heading_tail_den_caps st st' :
  den heading_tail_re st st' →
  ∃ P W e, mrest st = P ++ W ++ e ∧ P ≠ []
           ∧ Forall (λ c, one_of ".,;:" c = true) P
           ∧ Forall (λ c, isspace c = true) W
           ∧ (e = [] ∨ e = [NL])
           ∧ mcaps st' = (3, W) :: (2, P) :: mcaps st.
Proof.
  unfold heading_tail_re, cat, Plus. cbn [fold_right den].
  intros (m1 & (m2 & (m3 & (c & t & E & Hc & ->)
                      & (run & Hrun & E2 & Hp2 & Hc2)) & ->)
          & m4 & (m5 & (W & HW & E3 & Hp3 & Hc3) & ->) & m6 & [He ->] & ->).
  simpl in *. exists (c :: run), W, (mrest m5).
  rewrite E, E2, E3. split_and!; [done|done|by constructor|done|done|].
  rewrite Hc3, Hc2, Hp3, Hp2. f_equal; [|f_equal]; f_equal.
  - apply take_app_length'. lia.
  - rewrite E, E2. apply (take_app_length' (c :: run)). simpl. lia.
Qed.

(** A match of the heading pattern splits the line into the text group 1
    holds, a run of punctuation, and the whitespace group 3 holds. *)
Lemma heading_punct_den (line : str) m :
  re_match heading_punct_re line = Some m →
  ∃ w P W e, line = w ++ P ++ W ++ e
             ∧ Forall (λ c, one_of ".,;:" c = true) P
             ∧ Forall (λ c, isspace c = true) e
             ∧ group m 1 = Some w ∧ group m 3 = Some W.
Proof.
  intros H. apply re_match_sound in H.
  change heading_punct_re with
    (Seq Bol (Seq (Grp 1 (cat [Plus true (is_char "#"); Plus true isspace;
                               Plus false dot])) heading_tail_re)) in H.
  cbn [den] in H.
  destruct H as (m0 & [_ ->] & m1 & (st1 & Hg & ->) & Ht).
  apply den_consumed in Hg as (w & Ew & Hpos).
  apply heading_tail_den_caps in Ht as (P & W & e & E & _ & HP & _ & He & Hc).
  simpl in *. exists w, P, W, e. rewrite Ew, E.
  split_and!; [done|done|by destruct He as [-> | ->]; repeat constructor| |].
  - unfold group. rewrite Hc. cbn [assoc Nat.eqb]. f_equal.
    rewrite Nat.sub_0_r, Ew, Hpos. by apply take_app_length'.
  - unfold group. by rewrite Hc.
Qed.

(** A match of the emphasis pattern is a star, whitespace, the text group 1
    holds, whitespace, a star. *)
Lemma emphasis_den pos (rest : str) m :
  exec emphasis_re (MS pos rest []) Some = Some m →
  ∃ W1 g W2 t, rest = ["*"] ++ W1 ++ g ++ W2 ++ ["*"] ++ t
               ∧ mpos m = pos + length (["*"] ++ W1 ++ g ++ W2 ++ ["*"])
               ∧ Forall (λ c, isspace c = true) W1
               ∧ Forall (λ c, isspace c = true) W2
               ∧ backref m 1 = g.
Proof.
  intros H. apply exec_sound in H as (st' & Hd & [= ->]).
  unfold emphasis_re, cat, Plus in Hd. cbn [fold_right den] in Hd.
  destruct Hd as (m1 & (c & t & E & Hc & ->)
                  & m2 & (m3 & (w0 & t1 & E1 & Hw0 & ->)
                          & (r1 & Hr1 & E2 & Hp2 & Hc2))
                  & m4 & (m5 & (m6 & (g0 & t2 & E3 & Hg0 & ->)
                                & (r2 & Hr2 & E4 & Hp4 & Hc4)) & ->)
                  & m7 & (m8 & (v0 & t3 & E5 & Hv0 & ->)
                          & (r3 & Hr3 & E6 & Hp6 & Hc6))
                  & m9 & (c' & t4 & E7 & Hc' & ->) & ->).
  simpl in *. apply eqb_true in Hc as ->. apply eqb_true in Hc' as ->.
  exists (w0 :: r1), (g0 :: r2), (v0 :: r3), t4.
  subst t t1. rewrite E3 in *. subst t2. rewrite E5 in *. subst t3.
  rewrite E7 in *.
  split_and!; [|  |by constructor|by constructor|].
  - exact E.
  - rewrite Hp6, Hp4, Hp2. simpl. repeat (rewrite length_app; simpl). lia.
  - unfold backref, group. rewrite Hc6. cbn [assoc Nat.eqb default].
    apply (take_app_length' (g0 :: r2)). simpl. lia.
Qed.

Section deletions.
Context (D : ascii → Prop) (R : str → str → Prop).
Hypothesis R_refl : ∀ s, R s s.
Hypothesis R_trans : ∀ a b c, R a b → R b c → R a c.
Hypothesis R_app : ∀ w w' t t', R w w' → R t t' → R (w ++ t) (w' ++ t').
Hypothesis R_drop : ∀ w, Forall D w → R w [].
Hypothesis D_space : ∀ c, isspace c = true → D c.

Lemma rel_cons c (a b : str) : R a b → R (c :: a) (c :: b).
Proof. intros H. by apply (R_app [c] [c]). Qed.

Lemma rel_drop_l (w s : str) : Forall D w → R (w ++ s) s.
Proof. intros H. apply (R_app w [] s s); auto. Qed.

Lemma rel_drop_r (w s : str) : Forall D w → R (s ++ w) s.
Proof.
  intros H. rewrite <- (app_nil_r s) at 2. apply R_app; auto.
Qed.

Lemma spaces_droppable (w : str) : Forall (λ c, isspace c = true) w → Forall D w.
Proof. intros H. eapply Forall_impl; [done|]. auto. Qed.

Lemma re_sub_loop_rel r repl :
  (∀ pos rest m, exec r (MS pos rest []) Some = Some m →
     ∃ w t, rest = w ++ t ∧ w ≠ [] ∧ mpos m = pos + length w
            ∧ R w (repl m)) →
  ∀ len (s : str) pos, length s ≤ len → R s (re_sub_loop r repl s pos 0).
Proof.
  intros Hmatch. induction len as [|len IH]; intros s pos Hlen.
  - destruct s; [apply R_refl|simpl in Hlen; lia].
  - destruct s as [|c s]; [apply R_refl|].
    destruct (exec r (MS pos (c :: s) []) Some) as [m|] eqn:E.
    + rewrite (re_sub_loop_match _ _ _ _ _ _ E).
      apply Hmatch in E as (w & t & Ew & Hw & Hpos & HR).
      destruct w as [|x w]; [done|]. injection Ew as <- ->.
      replace (mpos m - pos - 1) with (length w) by (simpl in Hpos; lia).
      rewrite re_sub_loop_skip.
      change (c :: w ++ t) with ((c :: w) ++ t). apply R_app; [done|].
      apply IH. simpl in Hlen. rewrite length_app in Hlen. lia.
    + cbn [re_sub_loop]. rewrite E. apply rel_cons, IH. simpl in Hlen. lia.
Qed.

Lemma md037_rel (line : str) : R line (md037 line).
Proof.
  unfold md037, re_sub. apply (re_sub_loop_rel _ _) with (len := length line);
    [|done].
  intros pos rest m Hm.
  apply emphasis_den in Hm as (W1 & g & W2 & t & -> & Hpos & HW1 & HW2 & Hg).
  exists (["*"] ++ W1 ++ g ++ W2 ++ ["*"]), t.
  split_and!; [by rewrite <- !app_assoc|done|done|].
  rewrite Hg. change (txt "*") with ["*"].
  apply R_app; [done|].
  eapply R_trans; [apply rel_drop_l; by apply spaces_droppable|].
  apply R_app; [done|]. apply rel_drop_l. by apply spaces_droppable.
Qed.

Lemma lstrip_by_split p (s : str) :
  ∃ a, s = a ++ lstrip_by p s ∧ Forall (λ c, p c = true) a.
Proof.
  induction s as [|c s (a & E & Ha)]; [by exists []|]. simpl.
  destruct (p c) eqn:Hc; [|by exists []].
  exists (c :: a). split; [by rewrite E at 1|by constructor].
Qed.

Lemma rstrip_rel (s : str) : R s (rstrip s).
Proof.
  unfold rstrip. destruct (rstrip_by_split isspace s) as (tail & E & Ht).
  rewrite E at 1. apply rel_drop_r. by apply spaces_droppable.
Qed.

Lemma strip_rel (s : str) : R s (strip s).
Proof.
  unfold strip. destruct (lstrip_by_split isspace s) as (a & E & Ha).
  eapply R_trans; [|apply rstrip_rel].
  rewrite E at 1. apply rel_drop_l. by apply spaces_droppable.
Qed.

Lemma join_rel sep (X Y : list str) :
  Forall2 R X Y → R (join sep X) (join sep Y).
Proof.
  induction 1 as [|x y X Y Hxy HXY IH]; [apply R_refl|].
  destruct HXY as [|x' y' X Y Hxy' HXY]; [done|].
  rewrite !join_cons by done. apply R_app; [done|]. apply R_app; [done|].
  apply IH.
Qed.

Lemma imap_rel (f : nat → str → str) (L : list str) :
  (∀ j x, R x (f j x)) → Forall2 R L (imap f L).
Proof.
  revert f. induction L as [|x L IH]; intros f Hf; simpl; [constructor|].
  constructor; [apply Hf|]. apply IH. intros j y. apply Hf.
Qed.

Lemma md060_rel (line : str) : R line (md060 line).
Proof.
  unfold md060. destruct (contains _ line && _); [|apply R_refl].
  destruct (negb _); [|apply R_refl].
  rewrite <- (join_split "|" line) at 1. change (txt "|") with ["|"].
  apply join_rel. unfold compact_cells. apply imap_rel.
  intros j x. destruct (_ || _); [apply R_refl|apply strip_rel].
Qed.

Lemma md009_rel (line : str) : R line (md009 line).
Proof.
  unfold md009. destruct (_ && _); [apply rstrip_rel|apply R_refl].
Qed.

Lemma md007_rel (line : str) : R line (md007 line).
Proof.
  unfold md007. destruct (matches indent4_re line) eqn:E; [|apply R_refl].
  apply indent4_shape in E as (m & w & rest & -> & _).
  rewrite replace_first_prefix.
  change (txt "    ") with ([SP; SP] ++ txt "  "). rewrite <- app_assoc.
  apply rel_drop_l. apply spaces_droppable. by repeat constructor.
Qed.

Hypothesis D_punct : ∀ c, one_of ".,;:" c = true → D c.

Lemma md026_rel (line l : str) : md026 line = Some l → R line l.
Proof.
  unfold md026. destruct (startswith _ line); [|intros [= <-]; apply R_refl].
  destruct (re_match heading_punct_re line) as [m|] eqn:E;
    [|intros [= <-]; apply R_refl].
  apply heading_punct_den in E as (w & P & W & e & -> & HP & He & -> & ->).
  simpl. intros [= <-]. apply R_app; [done|].
  eapply R_trans.
  - apply rel_drop_l. eapply Forall_impl; [done|]. auto.
  - apply rel_drop_r. by apply spaces_droppable.
Qed.

Lemma rewrite_line_rel (line l : str) : rewrite_line line = Some l → R line l.
Proof.
  unfold rewrite_line. destruct (md026 line) as [l1|] eqn:E; [|done].
  simpl. intros [= <-]. apply md026_rel in E.
  assert (md029 (md007 l1) = md007 l1) as ->.
  { unfold md029. by destruct (re_match _ _). }
  eapply R_trans; [done|]. eapply R_trans; [apply md007_rel|].
  eapply R_trans; [apply md009_rel|].
  eapply R_trans; [apply md037_rel|]. apply md060_rel.
Qed.

Lemma errors_lines_rel L : ∀ b out,
  errors_lines b L = Some out → Forall2 R L out.
Proof.
  induction L as [|l L IH]; intros b out; simpl.
  - intros [= <-]. constructor.
  - destruct (is_code_fence l).
    + destruct (errors_lines (negb b) L) eqn:E; [|done]. intros [= <-].
      constructor; eauto.
    + destruct b.
      * destruct (errors_lines true L) eqn:E; [|done]. intros [= <-].
        constructor; eauto.
      * destruct (rewrite_line l) as [l'|] eqn:El; [|done]. simpl.
        destruct (errors_lines false L) eqn:E; [|done]. intros [= <-].
        constructor; [by apply rewrite_line_rel|eauto].
Qed.
End deletions.

Lemma content_of_app (a b : str) :
  content_of (a ++ b) = content_of a ++ content_of b.
Proof. apply List.filter_app. Qed.

Lemma content_of_dropped (w : str) :
  Forall (λ c, isspace c = true ∨ one_of ".,;:" c = true) w →
  content_of w = [].
Proof.
  induction 1 as [|c w Hc _ IH]; [done|]. unfold content_of in *. simpl.
  rewrite IH. unfold content_char.
  by destruct Hc as [-> | ->]; rewrite ?orb_true_r.
Qed.

Lemma unspaced_app (a b : str) :
  unspaced (a ++ b) = unspaced a ++ unspaced b.
Proof. apply List.filter_app. Qed.

Lemma unspaced_dropped (w : str) :
  Forall (λ c, isspace c = true) w → unspaced w = [].
Proof.
  induction 1 as [|c w Hc _ IH]; [done|]. unfold unspaced in *. simpl.
  by rewrite IH, Hc.
Qed.

(** X5: [fix_markdown_errors] only deletes, and what it deletes is
    whitespace and the punctuation marks of MD026.  It returns a text whose
    lines answer the lines of its input one by one; each is a subsequence
    of its input line, and the characters of the two that are neither
    whitespace nor one of [. , ; :] are the same, in the same order. *)
Theorem errors_only_deletes (content : str) :
  ∃ out, fix_markdown_errors content = Some out
         ∧ Forall2 (λ l o, o `sublist_of` l ∧ content_of o = content_of l)
                   (split NL content) (split NL out).
Proof.
  destruct (fix_markdown_errors_lines content) as (out & E & _ & -> & Hs).
  exists (join [NL] out). split; [done|]. rewrite Hs.
  apply (errors_lines_rel
           (λ c, isspace c = true ∨ one_of ".,;:" c = true)
           (λ l o : str, o `sublist_of` l ∧ content_of o = content_of l))
    with (b := false); [| | | | | |done].
  - done.
  - intros a b c [H1 H2] [H3 H4]. split; [by etrans|congruence].
  - intros w w' t t' [H1 H2] [H3 H4]. split; [by apply sublist_app|].
    rewrite !content_of_app. congruence.
  - intros w Hw. split; [apply sublist_nil_l|].
    symmetry. by apply content_of_dropped.
  - auto.
  - auto.
Qed.

(** X6: the MD037 rewrite deletes whitespace and nothing else: its result is
    a subsequence of the line with the same characters that are not
    whitespace, so it is never longer than the line. *)
Theorem md037_only_spaces (line : str) :
  md037 line `sublist_of` line
  ∧ unspaced (md037 line) = unspaced line
  ∧ length (md037 line) ≤ length line.
Proof.
  assert (md037 line `sublist_of` line ∧ unspaced (md037 line) = unspaced line)
    as [H1 H2].
  { apply (md037_rel (λ c, isspace c = true)
             (λ l o : str, o `sublist_of` l ∧ unspaced o = unspaced l)).
    - done.
    - intros a b c [H1 H2] [H3 H4]. split; [by etrans|congruence].
    - intros w w' t t' [H1 H2] [H3 H4]. split; [by apply sublist_app|].
      rewrite !unspaced_app. congruence.
    - intros w Hw. split; [apply sublist_nil_l|].
      symmetry. by apply unspaced_dropped.
    - auto. }
  split_and!; [done|done|by apply sublist_length].
Qed.

(** ** The kinds of line of the second pass *)

Lemma lstrip_by_app_all p (W s : str) :
  Forall (λ c, p c = true) W → lstrip_by p (W ++ s) = lstrip_by p s.
Proof. induction 1 as [|c W Hc _ IH]; [done|]. simpl. by rewrite Hc. Qed.

Lemma strip_marker (W : str) c (t : str) :
  Forall (λ c, isspace c = true) W → isspace c = false →
  ∃ t', strip (W ++ c :: t) = c :: t'.
Proof.
  intros HW Hc. destruct (strip_head c t Hc) as (t' & E). exists t'.
  unfold strip in *. rewrite lstrip_by_app_all by done. exact E.
Qed.

Lemma marker_cases c :
  one_of "-*" c = true ∨ isdigit c = true →
  isspace c = false ∧ Ascii.eqb "`" c = false.
Proof.
  intros [H | H].
  - unfold one_of in H. simpl in H. rewrite !orb_true_iff in H.
    destruct H as [H | [H | H]]; [| |done];
      apply eqb_true in H; subst c; done.
  - unfold isdigit in H.
    destruct c as [[] [] [] [] [] [] [] []]; try done.
Qed.

Lemma list_line_strip l :
  is_list l = true →
  ∃ c t, strip l = c :: t ∧ isspace c = false ∧ Ascii.eqb "`" c = false.
Proof.
  unfold is_list, matches. destruct (re_match list_item_re l) as [m|] eqn:E;
    [intros _|done].
  apply list_item_den in E as (W & c & t & -> & HW & Hc).
  apply marker_cases in Hc as [Hs Hb].
  destruct (strip_marker W c t HW Hs) as (t' & E). by exists c, t'.
Qed.

Lemma list_not_fence l : is_list l = true → is_code_fence l = false.
Proof.
  intros H. apply list_line_strip in H as (c & t & E & _ & Hb).
  unfold is_code_fence. rewrite E.
  change (startswith (txt "```") (c :: t))
    with (Ascii.eqb "`" c && startswith (txt "``") t).
  by rewrite Hb.
Qed.

Lemma list_not_blank l : is_list l = true → is_blank l = false.
Proof.
  intros H. apply list_line_strip in H as (c & t & E & _ & _).
  unfold is_blank. by rewrite E.
Qed.

Lemma fence_not_blank l : is_code_fence l = true → is_blank l = false.
Proof.
  unfold is_code_fence, is_blank. by destruct (strip l).
Qed.

Lemma heading_not_blank l : heading_like l = true → is_blank l = false.
Proof.
  intros H. apply heading_like_hash in H as (t & ->).
  destruct (strip_head "#" t) as (t' & E); [done|].
  unfold is_blank. by rewrite E.
Qed.

Lemma heading_not_list l : heading_like l = true → is_list l = false.
Proof. intros H. apply heading_like_hash in H as (t & ->). apply hash_not_list. Qed.

Lemma heading_not_fence l : heading_like l = true → is_code_fence l = false.
Proof. intros H. apply heading_like_hash in H as (t & ->). apply hash_not_fence. Qed.

Lemma truthy_strip l : truthy (strip l) = negb (is_blank l).
Proof. unfold is_blank, truthy. by destruct (strip l). Qed.

Lemma kinds_exclusive l :
  b2n (heading_like l) + b2n (is_list l) + b2n (is_code_fence l)
  + b2n (is_blank l) ≤ 1.
Proof.
  destruct (heading_like l) eqn:Hh.
  - rewrite (heading_not_list l), (heading_not_fence l),
      (heading_not_blank l) by done. simpl. lia.
  - destruct (is_list l) eqn:Hl.
    + rewrite (list_not_fence l), (list_not_blank l) by done. simpl. lia.
    + destruct (is_code_fence l) eqn:Hf.
      * rewrite (fence_not_blank l) by done. simpl. lia.
      * destruct (is_blank l); simpl; lia.
Qed.

Lemma blanks_before_le prev line : blanks_before prev line ≤ 1.
Proof.
  pose proof (kinds_exclusive line) as H. unfold blanks_before.
  destruct (heading_like line), (is_list line), (is_code_fence line);
    simpl in *; try lia;
    match goal with |- context [b2n ?b] => destruct b end; simpl; lia.
Qed.

Lemma blanks_after_le line next : blanks_after line next ≤ 1.
Proof.
  pose proof (kinds_exclusive line) as H. unfold blanks_after.
  destruct (heading_like line), (is_list line), (is_code_fence line);
    simpl in *; try lia;
    match goal with |- context [b2n ?b] => destruct b end; simpl; lia.
Qed.

Lemma blanks_before_first line : blanks_before [] line = 0.
Proof.
  unfold blanks_before. change (strip []) with (@nil ascii).
  cbn [truthy]. by rewrite !andb_false_r.
Qed.

Lemma blanks_after_last line : blanks_after line [] = 0.
Proof.
  unfold blanks_after. change (strip []) with (@nil ascii).
  cbn [truthy]. by rewrite !andb_false_r.
Qed.


Lemma emitted_list prev line next :
  is_list line = true →
  emitted prev line next
  = (if is_blank prev || is_list prev || heading_like prev
        || is_code_fence prev then [] else [[]])
    ++ [line]
    ++ (if is_blank next || is_list next || heading_like next
        then [] else [[]]).
Proof.
  intros Hl. pose proof (kinds_exclusive line) as H. rewrite Hl in H.
  unfold emitted, blanks_before, blanks_after. rewrite !truthy_strip, Hl.
  destruct (heading_like line), (is_code_fence line); simpl in H; try lia.
  f_equal; [|f_equal].
  - by destruct (is_blank prev), (is_list prev), (heading_like prev),
      (is_code_fence prev).
  - by destruct (is_blank next), (is_list next), (heading_like next).
Qed.

Lemma emitted_fence prev line next :
  is_code_fence line = true →
  emitted prev line next
  = (if is_blank prev || heading_like prev then [] else [[]])
    ++ [line]
    ++ (if is_blank next || heading_like next then [] else [[]]).
Proof.
  intros Hf. pose proof (kinds_exclusive line) as H. rewrite Hf in H.
  unfold emitted, blanks_before, blanks_after. rewrite !truthy_strip, Hf.
  destruct (heading_like line), (is_list line); simpl in H; try lia.
  f_equal; [|f_equal].
  - by destruct (is_blank prev), (heading_like prev).
  - by destruct (is_blank next), (heading_like next).
Qed.

Lemma second_pass_between (prev line next : str) :
  heading_like prev = false → is_list prev = false →
  is_code_fence prev = false →
  heading_like next = false → is_list next = false →
  is_code_fence next = false →
  second_pass [prev; line; next]
  = Some ([prev] ++ emitted prev line next ++ [next]).
Proof.
  intros Hp1 Hp2 Hp3 Hn1 Hn2 Hn3. rewrite second_pass_view.
  cbn [blank_pass hd].
  rewrite (emitted_plain [] prev line), (emitted_plain line next []) by done.
  by rewrite app_nil_r.
Qed.

(** X8: what the loop of the second pass appends to [result] at a list item
    (MD032) and at a fence delimiter (MD031), [prev] being the line before
    it in the list, or the empty line, and [next] the line after it, or the
    empty line.  At a list item that is one blank line unless [prev] is
    blank, a list item, a heading or a fence delimiter, the line, and one
    blank line unless [next] is blank, a list item or a heading: a fence
    delimiter after it does not hold the blank line back, one before it
    does.  At a fence delimiter, opening or closing, it is one blank line
    unless [prev] is blank or a heading, the line, and one blank line
    unless [next] is blank or a heading.  So a list item or a fence
    delimiter that stands between two lines that are no heading, list item
    or fence delimiter comes out of the pass with one blank line on each
    side where the neighbour is not blank. *)
Theorem second_pass_lists_and_fences :
  (∀ (D T result : list str) (line : str),
     let prev := default [] (last D) in
     let next := hd [] T in
     (is_list line = true →
      second_pass_body (D ++ line :: T) result (length D, line)
      = Some (result
              ++ (if is_blank prev || is_list prev || heading_like prev
                     || is_code_fence prev then [] else [[]])
              ++ [line]
              ++ (if is_blank next || is_list next || heading_like next
                  then [] else [[]])))
     ∧ (is_code_fence line = true →
        second_pass_body (D ++ line :: T) result (length D, line)
        = Some (result
                ++ (if is_blank prev || heading_like prev then [] else [[]])
                ++ [line]
                ++ (if is_blank next || heading_like next
                    then [] else [[]]))))
  ∧ (∀ prev line next : str,
       is_list line = true ∨ is_code_fence line = true →
       heading_like prev = false → is_list prev = false →
       is_code_fence prev = false →
       heading_like next = false → is_list next = false →
       is_code_fence next = false →
       second_pass [prev; line; next]
       = Some ([prev] ++ (if is_blank prev then [] else [[]])
               ++ [line] ++ (if is_blank next then [] else [[]])
               ++ [next])).
Proof.
  split.
  - intros D T result line prev next. rewrite second_pass_body_middle.
    split; intros H; do 2 f_equal;
      [by apply emitted_list|by apply emitted_fence].
  - intros prev line next Hl Hp1 Hp2 Hp3 Hn1 Hn2 Hn3.
    rewrite second_pass_between by done. do 2 f_equal.
    destruct Hl as [Hl | Hl].
    + rewrite emitted_list by done.
      rewrite Hp1, Hp2, Hp3, Hn1, Hn2, !orb_false_r, <- !app_assoc. done.
    + rewrite emitted_fence by done.
      rewrite Hp1, Hn1, !orb_false_r, <- !app_assoc. done.
Qed.

Lemma second_pass_lists_and_fences_witness :
  second_pass_body (txt <$> ["```"; "- a"; "```"; "code"]%string) []
                   (1, txt "- a")
  = Some [txt "- a"; []]
  ∧ second_pass_body (txt <$> ["```"; "- a"; "```"; "code"]%string) []
                     (2, txt "```")
    = Some [[]; txt "```"; []]
  ∧ second_pass (txt <$> ["text"; "1. a"; "more"]%string)
    = Some (txt <$> ["text"; ""; "1. a"; ""; "more"]%string).
Proof.
  destruct second_pass_lists_and_fences as [H1 H2]. split_and!.
  - apply (proj1 (H1 [txt "```"] [txt "```"; txt "code"] [] (txt "- a"))).
    reflexivity.
  - apply (proj2 (H1 [txt "```"; txt "- a"] [txt "code"] [] (txt "```"))).
    reflexivity.
  - apply (H2 (txt "text") (txt "1. a") (txt "more")); try reflexivity.
    left. reflexivity.
Defined.

(** ** What [fix_markdown_complete] adds and takes away *)

Lemma nonempty_lines_app (X Y : list str) :
  nonempty_lines (X ++ Y) = nonempty_lines X ++ nonempty_lines Y.
Proof. apply List.filter_app. Qed.

Lemma nonempty_lines_blanks k : nonempty_lines (replicate k []) = [].
Proof. by induction k. Qed.

Lemma nonempty_lines_emitted prev line next :
  nonempty_lines (emitted prev line next) = nonempty_lines [line].
Proof.
  unfold emitted. rewrite !nonempty_lines_app, !nonempty_lines_blanks.
  by rewrite app_nil_r.
Qed.

Lemma nonempty_lines_blank_pass L : ∀ prev,
  nonempty_lines (blank_pass prev L) = nonempty_lines L.
Proof.
  induction L as [|l L IH]; intros prev; [done|]. cbn [blank_pass].
  rewrite nonempty_lines_app, nonempty_lines_emitted, IH.
  unfold nonempty_lines. simpl. by destruct (truthy l).
Qed.

Lemma blank_pass_sublist L : ∀ prev, L `sublist_of` blank_pass prev L.
Proof.
  induction L as [|l L IH]; intros prev; [done|]. cbn [blank_pass].
  change (l :: L) with ([l] ++ L). apply sublist_app; [|apply IH].
  unfold emitted. apply sublist_inserts_l, sublist_inserts_r. done.
Qed.

Lemma blank_pass_not_nil L prev : L ≠ [] → blank_pass prev L ≠ [].
Proof.
  destruct L as [|l L]; [done|]. intros _. cbn [blank_pass]. unfold emitted.
  intros H. apply app_eq_nil in H as [H _].
  apply app_eq_nil in H as [_ H]. done.
Qed.

Lemma blank_pass_last L : ∀ prev, last (blank_pass prev L) = last L.
Proof.
  induction L as [|l L IH]; intros prev; [done|]. cbn [blank_pass].
  destruct L as [|l' L].
  - cbn [blank_pass hd]. unfold emitted. rewrite blanks_after_last. simpl.
    rewrite app_nil_r, last_snoc. done.
  - rewrite last_app. rewrite IH.
    change (last (l :: l' :: L)) with (last (l' :: L)).
    destruct (last (l' :: L)) eqn:E; [done|].
    by apply last_None in E.
Qed.

Lemma blank_pass_length l L : ∀ prev,
  length (blank_pass prev (l :: L))
  ≤ blanks_before prev l + 1 + 3 * length L.
Proof.
  revert l. induction L as [|l' L IH]; intros l prev.
  - cbn [blank_pass hd]. unfold emitted. rewrite blanks_after_last. simpl.
    rewrite app_nil_r, length_app, length_replicate. simpl. lia.
  - change (blank_pass prev (l :: l' :: L))
      with (emitted prev l l' ++ blank_pass l (l' :: L)).
    rewrite length_app. specialize (IH l' l).
    pose proof (blanks_after_le l l'). pose proof (blanks_before_le l l').
    assert (length (emitted prev l l')
            = blanks_before prev l + 1 + blanks_after l l') as ->.
    { unfold emitted. rewrite !length_app, !length_replicate. simpl. lia. }
    change (length (l' :: L)) with (S (length L)). lia.
Qed.

(** X9: the second pass only adds empty lines, and none at the ends.  The
    lines it was given are in its result in their order, the lines of the
    result that are not empty are those of the list it was given, the first
    line and the last line stay first and last, and between two neighbours
    come at most two empty lines. *)
Theorem second_pass_only_adds_blanks (L : list str) :
  ∃ R, second_pass L = Some R
       ∧ L `sublist_of` R
       ∧ nonempty_lines R = nonempty_lines L
       ∧ head R = head L ∧ last R = last L
       ∧ length R ≤ 3 * length L - 2.
Proof.
  exists (blank_pass [] L). split_and!.
  - apply second_pass_view.
  - apply blank_pass_sublist.
  - apply nonempty_lines_blank_pass.
  - destruct L as [|l L]; [done|]. cbn [blank_pass]. unfold emitted.
    by rewrite blanks_before_first.
  - apply blank_pass_last.
  - destruct L as [|l L]; [done|].
    pose proof (blank_pass_length l L []) as H.
    rewrite blanks_before_first in H.
    change (length (l :: L)) with (S (length L)). lia.
Qed.

Lemma nonempty_lines_rstrip X :
  nonempty_lines (rstrip_lines X) = nonempty_lines X.
Proof.
  induction X as [|l X IH]; [done|]. cbn [rstrip_lines].
  destruct (rstrip_lines X) as [|y r].
  - destruct l; simpl in *; [done|]. by rewrite <- IH.
  - change (l :: y :: r) with ([l] ++ y :: r).
    change (l :: X) with ([l] ++ X).
    by rewrite !nonempty_lines_app, IH.
Qed.

Lemma nonempty_lines_final X :
  nonempty_lines (final_lines X) = nonempty_lines X.
Proof.
  unfold final_lines. pose proof (nonempty_lines_rstrip X) as H.
  destruct (rstrip_lines X) as [|y r]; [done|].
  rewrite nonempty_lines_app, H. simpl. by rewrite app_nil_r.
Qed.

Lemma nonempty_lines_squeeze X : ∀ n,
  nonempty_lines (squeeze_lines n X) = nonempty_lines X.
Proof.
  induction X as [|l X IH]; intros n; [done|].
  destruct X as [|l' X]; [done|]. rewrite squeeze_lines_cons by done.
  destruct l as [|c l].
  - destruct (n <? 2); simpl; apply IH.
  - change (nonempty_lines ((c :: l) :: squeeze_lines 1 (l' :: X)))
      with ((c :: l) :: nonempty_lines (squeeze_lines 1 (l' :: X))).
    by rewrite IH.
Qed.

Lemma fix_line_nil (l : str) : fix_line l = [] ↔ l = [].
Proof.
  split; [|by intros ->].
  unfold fix_line. destruct (matches table_sep_re l) eqn:E.
  - apply table_sep_head in E as (t & ->).
    change ("|" :: t) with ([] ++ "|" :: t). rewrite split_app_sep.
    change (split "|" []) with [@nil ascii].
    destruct (split "|" t) as [|x r] eqn:Et; [by apply split_not_nil in Et|].
    unfold sep_cells. simpl. destruct (imap _ r); done.
  - by destruct (str_eqb _ _).
Qed.

(** X10: [fix_markdown_complete] neither drops, adds nor reorders a line
    that is not empty.  The first pass leaves an empty line empty and no
    other line empty, and the lines of the output that are not empty are
    the lines of the first pass that are not empty, in their order. *)
Theorem complete_keeps_nonempty_lines (content : str) :
  ∃ L1 out,
    first_pass (split NL content) = Some L1
    ∧ fix_markdown_complete content = Some out
    ∧ Forall2 (λ l l1, l1 = [] ↔ l = []) (split NL content) L1
    ∧ nonempty_lines (split NL out) = nonempty_lines L1.
Proof.
  destruct (fix_markdown_complete_lines content) as (E & _ & _ & Hs).
  eexists _, _. split_and!; [apply first_pass_view|exact E| |].
  - apply Forall2_fmap_r, Forall_Forall2_diag, Forall_forall.
    intros l _. apply fix_line_nil.
  - rewrite Hs, nonempty_lines_final, nonempty_lines_squeeze.
    apply nonempty_lines_blank_pass.
Qed.

Lemma squeeze_run_length n k (b : str) :
  3 ≤ k → length (squeeze n (replicate k NL ++ b)) < k + length b.
Proof.
  intros Hk. rewrite squeeze_run, length_app, length_replicate.
  pose proof (squeeze_length (n + k) b). lia.
Qed.

Lemma squeeze_fixed_no_run n (a b : str) :
  squeeze n (a ++ [NL; NL; NL] ++ b) ≠ a ++ [NL; NL; NL] ++ b.
Proof.
  intros H. apply (f_equal length) in H. rewrite squeeze_app in H.
  pose proof (squeeze_length n a).
  pose proof (squeeze_run_length (newlines_after n a) 3 b (le_n 3)) as Hr.
  change (replicate 3 NL) with [NL; NL; NL] in Hr.
  rewrite length_app in H.
  set (x := length (squeeze (newlines_after n a) ([NL; NL; NL] ++ b))) in *.
  rewrite !length_app in H. simpl in H. lia.
Qed.

Lemma join_two_empty (S : list str) :
  join [NL] ([] :: [] :: S)
  = match S with [] => [NL] | _ :: _ => [NL; NL] ++ join [NL] S end.
Proof. destruct S; reflexivity. Qed.

Lemma lines_two_empty (L : list str) i :
  L !! i = Some [] → L !! (S i) = Some [] →
  L = take i L ++ [] :: [] :: drop (S (S i)) L.
Proof.
  intros H1 H2. rewrite <- (take_drop_middle L i [] H1) at 1. do 2 f_equal.
  by rewrite <- (take_drop_middle L (S i) [] H2) at 1;
    rewrite drop_app_length'
      by (rewrite length_take; apply lookup_lt_Some in H2; lia).
Qed.

Lemma complete_output_tail content :
  ∃ body, fix_markdown_complete content = Some (body ++ [NL])
          ∧ last body ≠ Some NL
          ∧ ∀ a b, body ++ [NL] ≠ a ++ [NL; NL; NL] ++ b.
Proof.
  rewrite fix_markdown_complete_view, collapse_blank_runs_squeeze.
  set (t := join [NL] _).
  exists (rstrip_by (is_char NL) (squeeze 0 t)). split_and!; [done| |].
  - intros H. by apply rstrip_by_last in H.
  - intros a b H. pose proof (single_trailing_newline_tight t) as Ht.
    unfold single_trailing_newline in Ht. rewrite H in Ht.
    by apply squeeze_fixed_no_run in Ht.
Qed.

(** X11: the text [fix_markdown_complete] returns has no three newlines in
    a row.  Two empty lines in a row it has only as its first two lines, as
    where it is given three newlines and [a]; and lines of whitespace are
    not taken for empty ones: two of them in a row stay. *)
Theorem complete_no_newline_run :
  (∀ content, ∃ out,
     fix_markdown_complete content = Some out
     ∧ (∀ a b, out ≠ a ++ [NL; NL; NL] ++ b)
     ∧ (∀ i, split NL out !! (S i) = Some [] →
             split NL out !! (S (S i)) = Some [] → False))
  ∧ fix_markdown_complete ([NL; NL; NL] ++ txt "a")
    = Some ([NL; NL] ++ txt "a" ++ [NL])
  ∧ fix_markdown_complete (doc ["a"; " "; " "; "b"]%string)
    = Some (doc ["a"; " "; " "; "b"; ""]%string).
Proof.
  split_and!; [|by vm_compute|by vm_compute].
  intros content.
  destruct (complete_output_tail content) as (body & -> & Hlast & Hrun).
  eexists. split_and!; [done|done|].
  intros i H1 H2.
  pose proof (lines_two_empty _ (S i) H1 H2) as EL.
  pose proof (join_split NL (body ++ [NL])) as Ej.
  set (L := split NL (body ++ [NL])) in *.
  assert (take (S i) L ≠ []) as Hne.
  { apply lookup_lt_Some in H1. destruct L; simpl in *; [lia|done]. }
  rewrite EL, join_app, join_two_empty in Ej by done.
  destruct (drop (S (S (S i))) L) as [|x S'].
  - rewrite app_assoc in Ej. apply app_inj_tail in Ej as [Ej _].
    apply Hlast. rewrite <- Ej. apply last_snoc.
  - by apply (Hrun (join [NL] (take (S i) L)) (join [NL] (x :: S'))).
Qed.

(** X12: the substitution for MD012 on a run of newlines.  Between a text
    that does not end in a newline and one that does not begin with one, a
    run of [k] newlines comes out as [k] newlines when [k] is at most two
    and as two when it is more; the texts around it are treated on their
    own. *)
Theorem collapse_blank_runs_run (a b : str) k :
  (∀ c, last a = Some c → c ≠ NL) → (∀ c, head b = Some c → c ≠ NL) →
  collapse_blank_runs (a ++ replicate k NL ++ b)
  = collapse_blank_runs a ++ replicate (k `min` 2) NL ++ collapse_blank_runs b.
Proof.
  intros Ha Hb. rewrite !collapse_blank_runs_squeeze, squeeze_app.
  assert (newlines_after 0 a = 0) as ->.
  { destruct (last a) as [c|] eqn:E.
    - eapply newlines_after_last; eauto.
    - by apply last_None in E as ->. }
  rewrite squeeze_run. simpl. do 2 f_equal.
  destruct b as [|c b]; [done|].
  rewrite !squeeze_char by (by apply Hb). done.
Qed.

Lemma collapse_blank_runs_run_witness :
  collapse_blank_runs (txt "a" ++ replicate 4 NL ++ txt "b")
  = collapse_blank_runs (txt "a") ++ replicate (4 `min` 2) NL
    ++ collapse_blank_runs (txt "b").
Proof.
  apply (collapse_blank_runs_run (txt "a") (txt "b") 4).
  - intros c [= <-]. done.
  - intros c [= <-]. done.
Defined.

(** ** MD060: the cells of a table row *)

Lemma table_row_matches (body : str) :
  body ≠ [] → Forall (λ c, dot c = true) body →
  matches table_row_re ("|" :: body ++ ["|"]) = true.
Proof.
  intros Hne Hbody. destruct body as [|c run]; [done|].
  inversion Hbody as [|?? Hc Hrun]; subst.
  unfold matches, re_match, table_row_re, cat, Plus.
  cbn [fold_right exec mrest mpos mcaps Nat.eqb app].
  change (is_char "|" "|") with true. cbn iota. rewrite Hc.
  rewrite <- (app_nil_r ["|"]).
  rewrite (star_greedy_back _ _ _ run ["|"] [] 2
             (MS (2 + length run + 1) [] [])); [done| |done| |].
  - apply Forall_app. split; [done|]. by repeat constructor.
  - cbn [mrest mpos mcaps app]. change (is_char "|" "|") with true. cbn iota.
    do 2 f_equal. lia.
  - intros a b E Ha. destruct a as [|x [|y a]]; [done| |].
    + injection E as -> <-. done.
    + injection E as -> E. by destruct a.
Qed.

Lemma compact_cells_shape (cells : list str) :
  compact_cells ([] :: cells ++ [[]]) = [] :: (strip <$> cells) ++ [[]].
Proof.
  unfold compact_cells.
  assert (length ([] :: cells ++ [[]]) = length cells + 2) as ->
    by (simpl; rewrite length_app; simpl; lia).
  rewrite imap_cons. f_equal. rewrite imap_app. f_equal.
  - rewrite <- (imap_const strip). apply imap_ext. intros j x Hj.
    apply lookup_lt_Some in Hj. unfold compose, const.
    change (S j =? 0) with false.
    destruct (Nat.eqb_spec (S j) (length cells + 2 - 1)); [lia|done].
  - cbn [imap]. unfold compose. change (S (length cells + 0) =? 0) with false.
    destruct (Nat.eqb_spec (S (length cells + 0)) (length cells + 2 - 1));
      [done|lia].
Qed.

Lemma strip_row (body : str) :
  strip ("|" :: body ++ ["|"]) = "|" :: body ++ ["|"].
Proof.
  unfold strip. change (lstrip_by isspace ("|" :: body ++ ["|"]))
    with ("|" :: body ++ ["|"]).
  apply rstrip_by_fixed. intros c Hc.
  change ("|" :: body ++ ["|"]) with (("|" :: body) ++ ["|"]) in Hc.
  rewrite last_snoc in Hc. by injection Hc as <-.
Qed.

Lemma row_pieces (cells : list str) :
  cells ≠ [] → Forall (Forall (λ c, c ≠ "|")) cells →
  split "|" ("|" :: join (txt "|") cells ++ ["|"]) = [] :: cells ++ [[]].
Proof.
  intros Hne Hcells. cbn [split]. rewrite Ascii.eqb_refl, split_snoc_sep.
  change (txt "|") with ["|"]. by rewrite split_join.
Qed.

(** X13 (MD060): what the compaction of a table row is.  Of a row written as
    a bar, cells joined by bars, and a bar, that is no separator row, every
    cell loses the whitespace at its two ends and nothing else changes; a
    separator row, and a line with no bar in it, stay as they are. *)
Theorem md060_compacts :
  (∀ cells : list str,
     Forall (Forall (λ c, c ≠ "|" ∧ c ≠ NL)) cells →
     Exists (λ c, one_of "-:| " c = false) (join (txt "|") cells) →
     md060 ("|" :: join (txt "|") cells ++ ["|"])
     = "|" :: join (txt "|") (strip <$> cells) ++ ["|"])
  ∧ (∀ mid : str,
       mid ≠ [] → Forall (λ c, one_of "-:| " c = true) mid →
       md060 ("|" :: mid ++ ["|"]) = "|" :: mid ++ ["|"])
  ∧ (∀ line : str, Forall (λ c, c ≠ "|") line → md060 line = line).
Proof.
  split_and!.
  - intros cells Hcells Hex.
    assert (cells ≠ []) as Hne by (intros ->; by inversion Hex).
    set (body := join (txt "|") cells) in *.
    assert (body ≠ []) as Hbody by (intros E; rewrite E in Hex; by inversion Hex).
    assert (Forall (λ c, c ≠ NL) body) as Hnl.
    { apply join_all; [by repeat constructor|].
      eapply Forall_impl; [done|]. intros x Hx.
      eapply Forall_impl; [done|]. by intros c [_ ?]. }
    unfold md060. cbn [contains existsb]. rewrite Ascii.eqb_refl.
    rewrite strip_row, table_row_matches; [|done|].
    2:{ eapply Forall_impl; [done|]. intros c Hc. unfold dot.
        apply eqb_false in Hc. by rewrite Hc. }
    cbn [andb orb].
    destruct (matches table_sep_re ("|" :: body ++ ["|"])) eqn:E.
    { apply table_sep_shape in E as (mid & Emid & _ & Hmid).
      - injection Emid as Emid. apply app_inv_tail in Emid as <-.
        apply Exists_exists in Hex as (c & Hin & Hc).
        rewrite Forall_forall in Hmid. by rewrite (Hmid c Hin) in Hc.
      - constructor; [done|]. apply Forall_app. split; [done|].
        by repeat constructor. }
    cbn [negb]. unfold body. rewrite row_pieces; [|done|].
    2:{ eapply Forall_impl; [done|]. intros x Hx.
        eapply Forall_impl; [done|]. by intros c [? _]. }
    rewrite compact_cells_shape.
    assert (strip <$> cells ≠ []) as Hs.
    { intros H. by apply fmap_nil_inv in H. }
    rewrite join_cons.
    + rewrite join_snoc by done. by rewrite app_nil_r.
    + intros H. by apply app_eq_nil in H as [_ ?].
  - intros mid Hne Hmid. unfold md060.
    rewrite (table_sep_matches mid) by done. cbn [negb].
    by destruct (_ && _).
  - intros line Hline. unfold md060.
    assert (contains "|" line = false) as ->; [|done].
    unfold contains. induction Hline as [|c l Hc _ IH]; [done|]. simpl.
    rewrite IH. destruct (Ascii.eqb_spec "|" c); [by subst|done].
Qed.

Lemma md060_compacts_witness :
  md060 (txt "| a |  b c | |") = txt "|a|b c||"
  ∧ md060 (txt "| --- | :-: |") = txt "| --- | :-: |"
  ∧ md060 (txt " no table ") = txt " no table ".
Proof.
  destruct md060_compacts as (H1 & H2 & H3). split_and!.
  - apply (H1 [txt " a "; txt "  b c "; txt " "]).
    + repeat constructor; done.
    + apply Exists_cons_tl, Exists_cons_hd. done.
  - apply (H2 (txt " --- | :-: ")); [done|]. each_char.
  - apply H3. each_char.
Defined.

(** ** The first pass of [fix_markdown_complete] *)

Lemma replace_char_filter (s : str) : replace_char SP [] s = without_spaces s.
Proof.
  unfold replace_char, without_spaces. induction s as [|a s IH]; [done|].
  simpl. rewrite IH. by destruct (Ascii.eqb a SP).
Qed.

Lemma without_spaces_app (a b : str) :
  without_spaces (a ++ b) = without_spaces a ++ without_spaces b.
Proof. apply List.filter_app. Qed.

Lemma without_spaces_dropped (w : str) :
  Forall (λ a, one_of "-:| " a = true) w → Forall (λ a, isspace a = true) w →
  without_spaces w = [].
Proof.
  induction 1 as [|a w Ha _ IH]; [done|]. intros Hs.
  inversion Hs as [|?? Hsp Hw]; subst. unfold without_spaces in *. simpl.
  rewrite IH by done.
  apply sep_class_cases in Ha as [-> | [-> | [-> | ->]]]; done.
Qed.

Lemma clean_cell_filter (c : str) :
  Forall (λ a, one_of "-:| " a = true) c →
  clean_cell c = " " :: without_spaces c ++ [" "].
Proof.
  intros Hc. unfold clean_cell, strip. rewrite replace_char_filter.
  destruct (lstrip_by_split isspace c) as (a & E & Ha).
  destruct (rstrip_by_split isspace (lstrip_by isspace c)) as (tail & E2 & Ht).
  rewrite E in Hc. apply Forall_app in Hc as [Hca Hc].
  rewrite E2 in Hc. apply Forall_app in Hc as [_ Hct].
  rewrite E at 2. rewrite E2 at 2. rewrite !without_spaces_app.
  rewrite (without_spaces_dropped a), (without_spaces_dropped tail) by done.
  by rewrite app_nil_r.
Qed.

(** X14: the first pass on a table separator row.  A line made of a bar, a
    non-empty run of the characters [- : |] and the space, and a bar comes
    out with every cell between its first and its last bar written as one
    space, the cell without its spaces, one space. *)
Theorem first_pass_table_separator (L : list str) i (mid : str) :
  L !! i = Some ("|" :: mid ++ ["|"]) →
  mid ≠ [] → Forall (λ c, one_of "-:| " c = true) mid →
  ∃ L', first_pass L = Some L'
        ∧ L' !! i
          = Some ("|" :: join (txt "|")
                           ((λ c, " " :: without_spaces c ++ [" "])
                              <$> split "|" mid) ++ ["|"]).
Proof.
  intros Hi Hne Hmid. exists (fix_line <$> L). split; [apply first_pass_view|].
  rewrite list_lookup_fmap, Hi. simpl. rewrite fix_line_table by done.
  do 4 f_equal. apply Forall_fmap_ext.
  apply (split_all _ "|") in Hmid.
  eapply Forall_impl; [done|]. intros c Hc. by apply clean_cell_filter.
Qed.

Lemma first_pass_table_separator_witness :
  ∃ L', first_pass [txt "| a | b |"; txt "|---|: - :|"] = Some L'
        ∧ L' !! 1 = Some (txt "| --- | :-: |").
Proof.
  apply (first_pass_table_separator
           [txt "| a | b |"; txt "|---|: - :|"] 1 (txt "---|: - :")).
  - reflexivity.
  - done.
  - each_char.
Defined.

(** X15: the first pass keeps the number of lines, and on lines without a
    newline a second run of it changes nothing. *)
Theorem first_pass_idempotent (L : list str) :
  Forall (Forall (λ c, c ≠ NL)) L →
  ∃ L', first_pass L = Some L' ∧ length L' = length L
        ∧ first_pass L' = Some L'.
Proof.
  intros HL. exists (fix_line <$> L).
  split_and!; [apply first_pass_view|by rewrite length_fmap|].
  rewrite first_pass_view. f_equal. rewrite <- list_fmap_compose.
  apply Forall_fmap_ext. eapply Forall_impl; [done|].
  intros l Hl. by apply fix_line_idemp.
Qed.

Lemma first_pass_idempotent_witness :
  ∃ L', first_pass [txt "```"; txt "|-|"] = Some L' ∧ length L' = 2
        ∧ first_pass L' = Some L'.
Proof.
  apply (first_pass_idempotent [txt "```"; txt "|-|"]).
  repeat constructor; done.
Defined.
